(** * appleseed: the curve tree (the implementation file of curvetree.h)

    A shallow embedding of [collect_curves], [CurveTree::CurveTree] and
    [CurveTree::build_bvh], together with the foundation pieces they drive
    (the SAH partitioner, the BVH builder, the item reordering and the
    parameter lookup).  Vectors are lists, [size_t] indices are [nat] (every
    index is bounded by the size of a vector), string dictionaries are
    [gmap string string]. *)

From stdpp Require Import gmap strings list sorting.
From Stdlib Require Import QArith.
From Stdlib Require Import Qabs.

Close Scope Q_scope.
Open Scope Z_scope.
Open Scope nat_scope.

(** ** Bounding boxes (GAABB3)

    Modelled from the spec: the axis-aligned bounding box, a min and a max
    corner in 3D; its declaration lives in the foundation library.
    Coordinates live on an integer grid: the only operations the tree build
    performs on the corners of a box are comparisons, minimum and maximum
    (which are exact on the source's scalars as well), and the products that
    enter the surface area.  A box that has been invalidated and not yet grown
    contains nothing; it is the neutral element of [aabb_insert]. *)

Record Vector3 := mkVector3 { vx : Z; vy : Z; vz : Z }.

Definition vec_min (a b : Vector3) : Vector3 :=
  mkVector3 (Z.min (vx a) (vx b)) (Z.min (vy a) (vy b)) (Z.min (vz a) (vz b)).

Definition vec_max (a b : Vector3) : Vector3 :=
  mkVector3 (Z.max (vx a) (vx b)) (Z.max (vy a) (vy b)) (Z.max (vz a) (vz b)).

Inductive GAABB3 :=
  | InvalidBox
  | Box (bmin bmax : Vector3).

(** The union of two boxes: componentwise minimum of the min corners and
    componentwise maximum of the max corners. *)
Definition aabb_insert (a b : GAABB3) : GAABB3 :=
  match a, b with
  | InvalidBox, _ => b
  | _, InvalidBox => a
  | Box amin amax, Box bmin bmax => Box (vec_min amin bmin) (vec_max amax bmax)
  end.

Definition extent (b : GAABB3) : Vector3 :=
  match b with
  | InvalidBox => mkVector3 0 0 0
  | Box lo hi => mkVector3 (vx hi - vx lo) (vy hi - vy lo) (vz hi - vz lo)
  end.

Definition half_surface_area (b : GAABB3) : Z :=
  let e := extent b in (vx e * vy e + vy e * vz e + vz e * vx e)%Z.

(** Twice the center of the box along axis [d] (0, 1 or 2). *)
Definition component (d : nat) (v : Vector3) : Z :=
  match d with
  | 0 => vx v
  | 1 => vy v
  | _ => vz v
  end.

Definition center2 (d : nat) (b : GAABB3) : Z :=
  match b with
  | InvalidBox => 0%Z
  | Box lo hi => (component d lo + component d hi)%Z
  end.

(** ** Declarations curvetree.cpp takes from headers

    The curve type and its two operations, the model tag of curve objects,
    the three default constants of the curve tree and the conversion of a
    dictionary string to a [double] are declared in headers; the
    development is parametric in them. *)

Class Externals := {
  BezierCurve3d : Type;
  MatrixType : Type;
  (* BezierCurve3d(curve, transform) *)
  transform_curve : BezierCurve3d → MatrixType → BezierCurve3d;
  (* BezierCurve3d::get_bbox() *)
  get_bbox : BezierCurve3d → GAABB3;
  (* CurveObjectFactory::get_model() *)
  CurveObjectFactory_get_model : string;
  CurveTreeDefaultMaxLeafSize : nat;
  CurveTreeDefaultInteriorNodeTraversalCost : Q;
  CurveTreeDefaultCurveIntersectionCost : Q;
  (* from_string<double>() *)
  from_string_double : string → option Q;
}.

(** ** The scene as [collect_curves] reads it *)

(** An object answers [get_model]; a curve object also answers
    [get_curve_count] and [get_curve], here the length and the elements of
    [get_curves].  [collect_curves] reads the curves only after the model
    test has succeeded. *)
Record Object `{Externals} := mkObject {
  get_model : string;
  get_curves : list BezierCurve3d;
}.
Arguments mkObject {_} _ _.

Record ObjectInstance `{Externals} := mkObjectInstance {
  get_object : Object;
  (* get_transform().get_local_to_parent() *)
  get_local_to_parent : MatrixType;
}.
Arguments mkObjectInstance {_} _ _.

(** [acceleration_structure] is the string dictionary
    [get_parameters().child("acceleration_structure")]. *)
Record Assembly `{Externals} := mkAssembly {
  get_name : string;
  object_instances : list ObjectInstance;
  acceleration_structure : gmap string string;
}.
Arguments mkAssembly {_} _ _ _.

Record Arguments `{Externals} := mkArguments {
  m_curve_tree_uid : nat;
  m_bbox : GAABB3;
  m_assembly : Assembly;
}.
Arguments mkArguments {_} _ _ _.

Record CurveKey := mkCurveKey {
  object_instance_index : nat;
  curve_index : nat;
  material_index : nat;
}.

(** ** collect_curves *)

Section collect.
Context `{Ext : Externals}.

(** The two output vectors, grown by [push_back]. *)
Definition CurveVectors : Type := list BezierCurve3d * list CurveKey.

(** The inner loop, from curve index [j] over the curves still to visit. *)
Fixpoint store_curves (i : nat) (transform : MatrixType) (j : nat)
    (rest : list BezierCurve3d) (out : CurveVectors) : CurveVectors :=
  match rest with
  | [] => out
  | curve :: rest' =>
      store_curves i transform (S j) rest'
        (out.1 ++ [transform_curve curve transform],
         out.2 ++ [mkCurveKey i j 0])
  end.

(** The outer loop, from object instance index [i]. *)
Fixpoint collect_from (i : nat) (rest : list ObjectInstance)
    (out : CurveVectors) : CurveVectors :=
  match rest with
  | [] => out
  | object_instance :: rest' =>
      let object := get_object object_instance in
      (* Process only curve objects. *)
      if bool_decide (get_model object = CurveObjectFactory_get_model)
      then
        let transform := get_local_to_parent object_instance in
        collect_from (S i) rest'
          (store_curves i transform 0 (get_curves object) out)
      else collect_from (S i) rest' out
  end.

Definition collect_curves (arguments : Arguments) (out : CurveVectors)
    : CurveVectors :=
  collect_from 0 (object_instances (m_assembly arguments)) out.

(** What the collector is documented to emit: for each object instance in
    order, nothing unless its object carries the curve model tag, and
    otherwise one transformed curve and one key per curve, in curve
    order. *)
Definition emitted_by (i : nat) (object_instance : ObjectInstance)
    : list (BezierCurve3d * CurveKey) :=
  if bool_decide
       (get_model (get_object object_instance) = CurveObjectFactory_get_model)
  then
    imap (λ j curve,
            (transform_curve curve (get_local_to_parent object_instance),
             mkCurveKey i j 0))
         (get_curves (get_object object_instance))
  else [].

Definition emitted (arguments : Arguments) : list (BezierCurve3d * CurveKey) :=
  mjoin (imap emitted_by (object_instances (m_assembly arguments))).
End collect.

(** ** Tree nodes

    Modelled from the spec: the node type of the tree, declared in the
    foundation library.  A node is a leaf holding a range of the item
    ordering, or an interior node holding the indices of its two children in
    the node array; both carry the bounding box of their range. *)

Inductive NodeType :=
  | Leaf (item_index item_count : nat) (bbox : GAABB3)
  | Interior (left_child right_child : nat) (bbox : GAABB3).

Definition node_bbox (n : NodeType) : GAABB3 :=
  match n with
  | Leaf _ _ bbox => bbox
  | Interior _ _ bbox => bbox
  end.

(** ** The SAH partitioner (bvh::SAHPartitioner) *)

Section partitioner.
(** The bounding boxes of the items, indexed by item. *)
Variable bboxes : list GAABB3.
Variable max_leaf_size : nat.
Variable interior_node_traversal_cost : Q.
Variable item_intersection_cost : Q.

Definition item_bbox (item : nat) : GAABB3 :=
  default InvalidBox (bboxes !! item).

Definition bbox_of_items (items : list nat) : GAABB3 :=
  foldr (λ item acc, aabb_insert (item_bbox item) acc) InvalidBox items.

(** The items at positions [begin, end) of the item ordering. *)
Definition slice (ordering : list nat) (begin end_ : nat) : list nat :=
  take (end_ - begin) (drop begin ordering).

(** Modelled from the spec: bvh::SAHPartitioner::compute_bbox, declared in
    the foundation library; query (a), the bounding box of a
    contiguous index range of the item ordering. *)
Definition compute_bbox (ordering : list nat) (begin end_ : nat) : GAABB3 :=
  bbox_of_items (slice ordering begin end_).

(** Modelled from the spec: the dominant spatial axis of a box, the one of
    largest extent; ties go to the lowest axis index. *)
Definition dominant_axis (bbox : GAABB3) : nat :=
  let e := extent bbox in
  if bool_decide (vy e ≤ vx e ∧ vz e ≤ vx e)%Z then 0
  else if bool_decide (vz e ≤ vy e)%Z then 1
  else 2.

(** Modelled from the spec: the order in which candidate split positions
    are tested along axis [d]: by box center, ties by lowest item index. *)
Definition item_le (d : nat) (a b : nat) : Prop :=
  (center2 d (item_bbox a) < center2 d (item_bbox b))%Z
  ∨ (center2 d (item_bbox a) = center2 d (item_bbox b) ∧ a ≤ b).

#[local] Instance item_le_dec d a b : Decision (item_le d a b).
Proof. unfold item_le. apply _. Defined.

(** Modelled from the spec: the estimated traversal cost of splitting
    [sorted] after its first [k] items, the traversal cost plus the
    intersection cost of each child weighted by the probability of
    entering it (its surface area over the surface area of the range). *)
Definition split_cost (bbox : GAABB3) (sorted : list nat) (k : nat) : Q :=
  let left := bbox_of_items (take k sorted) in
  let right := bbox_of_items (drop k sorted) in
  (interior_node_traversal_cost
   + (inject_Z (half_surface_area left) / inject_Z (half_surface_area bbox))
     * (inject_Z (Z.of_nat k) * item_intersection_cost)
   + (inject_Z (half_surface_area right) / inject_Z (half_surface_area bbox))
     * (inject_Z (Z.of_nat (length sorted - k)) * item_intersection_cost))%Q.

(** Modelled from the spec: the cost of terminating as a leaf,
    intersection cost times range size. *)
Definition leaf_cost (count : nat) : Q :=
  (inject_Z (Z.of_nat count) * item_intersection_cost)%Q.

(** Modelled from the spec: the cheapest candidate among [best :: ks]; a
    later candidate replaces the current best only when strictly cheaper, so
    ties go to the lowest split position. *)
Fixpoint best_split (bbox : GAABB3) (sorted : list nat) (best : nat)
    (ks : list nat) : nat :=
  match ks with
  | [] => best
  | k :: ks' =>
      if Qle_bool (split_cost bbox sorted best) (split_cost bbox sorted k)
      then best_split bbox sorted best ks'
      else best_split bbox sorted k ks'
  end.

(** Modelled from the spec: query (c) of the partitioner, whether
    terminating the range as a leaf is cheaper than the best candidate
    split of the range. *)
Definition leaf_is_cheaper (ordering : list nat) (begin end_ : nat)
    (bbox : GAABB3) : bool :=
  let count := end_ - begin in
  let sorted := merge_sort (item_le (dominant_axis bbox))
                  (slice ordering begin end_) in
  let k := best_split bbox sorted 1 (seq 2 (count - 2)) in
  negb (Qle_bool (split_cost bbox sorted k) (leaf_cost count)).

(** Modelled from the spec: bvh::SAHPartitioner::partition, declared in
    the foundation library; queries (b) and (c).  It answers [None] when
    the range holds at most [max_leaf_size] items or when terminating as a
    leaf is cheaper than the best candidate split, and otherwise the new
    item ordering (the range sorted along the dominant axis) with the
    pivot that separates the two sub-ranges. *)
Definition partition (ordering : list nat) (begin end_ : nat) (bbox : GAABB3)
    : option (list nat * nat) :=
  let count := end_ - begin in
  if bool_decide (count ≤ max_leaf_size) then None
  else if leaf_is_cheaper ordering begin end_ bbox then None
  else
    let sorted := merge_sort (item_le (dominant_axis bbox))
                    (slice ordering begin end_) in
    let k := best_split bbox sorted 1 (seq 2 (count - 2)) in
    Some (take begin ordering ++ sorted ++ drop end_ ordering, begin + k).

(** ** The tree builder (bvh::Builder) *)

(** Modelled from the spec: the recursion frame of bvh::Builder, declared
    in the foundation library.  A frame evaluates the range
    [begin, end) with bounding box [bbox]; it emits a leaf when the range
    holds at most one item, when it holds at most [max_leaf_size] items or
    when the partitioner prefers a leaf, and otherwise splits the range,
    recurses into both sub-ranges and emits an interior node.  The nodes
    of the subtree are returned in the order they take in the node array
    from index [node_index] on: the node itself, the left subtree, the
    right subtree.  [fuel] bounds the depth of the recursion; [None] means
    the bound was reached. *)
Fixpoint subdivide_recurse (fuel : nat) (ordering : list nat)
    (node_index begin end_ : nat) (bbox : GAABB3)
    : option (list nat * list NodeType) :=
  match fuel with
  | 0 => None
  | S fuel' =>
      let count := end_ - begin in
      if bool_decide (count ≤ 1 ∨ count ≤ max_leaf_size)
      then Some (ordering, [Leaf begin count bbox])
      else
        match partition ordering begin end_ bbox with
        | None => Some (ordering, [Leaf begin count bbox])
        | Some (ordering1, pivot) =>
            let left_bbox := compute_bbox ordering1 begin pivot in
            let right_bbox := compute_bbox ordering1 pivot end_ in
            let left_node_index := S node_index in
            '(ordering2, left_nodes) ←
              subdivide_recurse fuel' ordering1 left_node_index
                begin pivot left_bbox;
            let right_node_index := left_node_index + length left_nodes in
            '(ordering3, right_nodes) ←
              subdivide_recurse fuel' ordering2 right_node_index
                pivot end_ right_bbox;
            Some (ordering3,
                  Interior left_node_index right_node_index bbox
                    :: left_nodes ++ right_nodes)
        end
  end.

(** Modelled from the spec: bvh::Builder::build over [size] items.  The
    partitioner starts from the identity item ordering; the root is node
    0.  It returns the final item ordering and the node array. *)
Definition build (size : nat) : option (list nat * list NodeType) :=
  let ordering := seq 0 size in
  subdivide_recurse (S size) ordering 0 0 size (compute_bbox ordering 0 size).
End partitioner.

(** ** Reordering (small_item_reorder) *)

(** Modelled from the spec: small_item_reorder, declared in the foundation
    library.  Position [p] of the rewritten array holds the item that was at
    index [order[p]]; an index outside the array (which the source never
    passes) contributes nothing. *)
Definition small_item_reorder {A} (items : list A) (order : list nat)
    : list A :=
  omap (λ i, items !! i) order.

(** ** Errors and parameters *)

Inductive Exception :=
  (* thrown by CurveTree::CurveTree *)
  | ExceptionNotImplemented
  (* raised by the closed-choice validation of a parameter, see
     [get_optional_choice] *)
  | ExceptionInvalidChoice (name value : string).

(** Modelled from the spec: the error taxonomy of the subsystem.  An
    unsupported or unimplemented build algorithm is a configuration error. *)
Inductive ErrorKind :=
  | ConfigurationError
  | DegenerateInputWarning.

Definition error_kind (e : Exception) : ErrorKind :=
  match e with
  | ExceptionNotImplemented => ConfigurationError
  | ExceptionInvalidChoice _ _ => ConfigurationError
  end.

(** Modelled from the spec: ParamArray::get_optional with a list of allowed
    values, declared in the renderer's parameter store.  An absent
    parameter takes the default; a value outside the closed choice fails
    with a configuration error. *)
Definition get_optional_choice (params : gmap string string)
    (name default : string) (allowed : list string) : Exception + string :=
  match params !! name with
  | None => inr default
  | Some value =>
      if bool_decide (value ∈ allowed) then inr value
      else inl (ExceptionInvalidChoice name value)
  end.

(** Modelled from the spec: ParamArray::get_optional without allowed values:
    an optional value with a default.  It never fails. *)
Definition get_optional_double `{Externals} (params : gmap string string)
    (name : string) (default_value : Q) : Q :=
  match params !! name with
  | None => default_value
  | Some value => default default_value (from_string_double value)
  end.

(** ** CurveTree *)

Record CurveTree `{Externals} := mkCurveTree {
  m_nodes : list NodeType;
  m_curves3 : list BezierCurve3d;
  m_curve_keys : list CurveKey;
}.
Arguments mkCurveTree {_} _ _ _.

(** The names of the entries inserted into a statistics bundle; the values
    (wall-clock times, the alignment of an address) are not modelled. *)
Definition Statistics : Type := list string.

Inductive Outcome (A : Type) :=
  | Returned (a : A)
  | Thrown (e : Exception)
  (* the depth bound of the builder's recursion was reached *)
  | DepthExceeded.
Arguments Returned {A} a.
Arguments Thrown {A} e.
Arguments DepthExceeded {A}.

Section CurveTree.
Context `{Ext : Externals}.

Definition empty_tree : CurveTree := mkCurveTree [] [] [].

(** The partitioner and the builder as [build_bvh] instantiates them. *)
Definition build_nodes (curve_bboxes : list GAABB3) (size : nat)
    : option (list nat * list NodeType) :=
  build curve_bboxes
    CurveTreeDefaultMaxLeafSize
    CurveTreeDefaultInteriorNodeTraversalCost
    CurveTreeDefaultCurveIntersectionCost
    size.

(** CurveTree::build_bvh, on the members of the tree under construction.
    [None] stands for the builder reaching its depth bound. *)
Definition build_bvh (arguments : Arguments) (params : gmap string string)
    (time : Q) (statistics : Statistics) (tree : CurveTree)
    : option CurveTree :=
  (* Collect the curves and curve keys from the curve object. *)
  let '(curves, curve_keys) :=
    collect_curves arguments (m_curves3 tree, m_curve_keys tree) in
  (* Retrieve the bounding box of the individual curves. *)
  let curve_count := length curves in
  let curve_bboxes := get_bbox <$> curves in
  (* Create the partitioner and build the tree. *)
  '(order, nodes) ← build_nodes curve_bboxes (length curves);
  (* Reorder the curves based on the nodes ordering. *)
  match curves with
  | [] => Some (mkCurveTree nodes curves curve_keys)
  | _ :: _ =>
      Some (mkCurveTree nodes
              (small_item_reorder curves order)
              (small_item_reorder curve_keys order))
  end.

(** CurveTree::CurveTree: the outcome of the constructor and the members
    of the tree at that point. *)
Definition CurveTree_new (arguments : Arguments)
    : Outcome Statistics * CurveTree :=
  let tree := empty_tree in
  (* Retrieve construction parameters. *)
  let params := acceleration_structure (m_assembly arguments) in
  match get_optional_choice params "algorithm" "bvh" ["bvh"; "sbvh"] with
  | inl e => (Thrown e, tree)
  | inr algorithm =>
      let time := get_optional_double params "time" (1 # 2) in
      (* Build the tree. *)
      let statistics : Statistics := [] in
      if bool_decide (algorithm = "bvh") then
        match build_bvh arguments params time statistics tree with
        | Some tree' =>
            (* Print curve tree statistics. *)
            (Returned (statistics ++ ["nodes alignment"; "total time"]), tree')
        | None => (DepthExceeded, tree)
        end
      else (Thrown ExceptionNotImplemented, tree)
  end.

(** The item ordering the partitioner holds when [build_bvh] reorders. *)
Definition item_ordering (arguments : Arguments) : option (list nat) :=
  let curves := (collect_curves arguments ([], [])).1 in
  fst <$> build_nodes (get_bbox <$> curves) (length curves).

(** The build algorithm the parameters select: the value of "algorithm",
    "bvh" when the parameter is absent. *)
Definition selected_algorithm (arguments : Arguments) : string :=
  default "bvh"
    (acceleration_structure (m_assembly arguments) !! "algorithm").

(** The same arguments with the "time" parameter set to [value]. *)
Definition with_time (value : string) (arguments : Arguments) : Arguments :=
  let assembly := m_assembly arguments in
  mkArguments (m_curve_tree_uid arguments) (m_bbox arguments)
    (mkAssembly (get_name assembly) (object_instances assembly)
       (<["time" := value]> (acceleration_structure assembly))).
End CurveTree.

(** ** A small scene to run the definitions on

    A curve is its bounding box with a tag, a transform is a translation. *)

Definition translate (t : Vector3) (b : GAABB3) : GAABB3 :=
  match b with
  | InvalidBox => InvalidBox
  | Box lo hi =>
      Box (mkVector3 (vx lo + vx t) (vy lo + vy t) (vz lo + vz t))
          (mkVector3 (vx hi + vx t) (vy hi + vy t) (vz hi + vz t))
  end.

Definition demo_externals : Externals := {|
  BezierCurve3d := GAABB3 * nat;
  MatrixType := Vector3;
  transform_curve := λ curve t, (translate t curve.1, curve.2);
  get_bbox := fst;
  CurveObjectFactory_get_model := "curve_object";
  CurveTreeDefaultMaxLeafSize := 1;
  CurveTreeDefaultInteriorNodeTraversalCost := 1;
  CurveTreeDefaultCurveIntersectionCost := 1;
  from_string_double := λ _, None;
|}.

Section demo.
#[local] Existing Instance demo_externals.

Definition unit_box (x y z : Z) : GAABB3 :=
  Box (mkVector3 x y z) (mkVector3 (x + 1) (y + 1) (z + 1)).

Definition origin : Vector3 := mkVector3 0 0 0.

(** Four unit boxes spread along the x axis, given out of order. *)
Definition demo_curves : Object :=
  mkObject "curve_object"
    [(unit_box 30 0 0, 0); (unit_box 0 0 0, 1);
     (unit_box 20 0 0, 2); (unit_box 10 0 0, 3)].

Definition demo_mesh : Object :=
  mkObject "mesh_object" [(unit_box 7 7 7, 4)].

Definition demo_arguments (params : gmap string string) : Arguments :=
  mkArguments 1 InvalidBox
    (mkAssembly "assembly"
       [mkObjectInstance demo_mesh origin;
        mkObjectInstance demo_curves origin;
        mkObjectInstance demo_curves (mkVector3 0 5 0)]
       params).


(** The bounding boxes of [demo_arguments], in the same sequence, carried
    by other curves of other objects under other parameters. *)
Definition shifted_arguments : Arguments :=
  mkArguments 3 InvalidBox
    (mkAssembly "shifted"
       [mkObjectInstance
          (mkObject "curve_object"
             [(unit_box 29 0 0, 10); (unit_box (-1) 0 0, 11);
              (unit_box 19 0 0, 12); (unit_box 9 0 0, 13)])
          (mkVector3 1 0 0);
        mkObjectInstance demo_mesh (mkVector3 2 2 2);
        mkObjectInstance
          (mkObject "curve_object"
             [(unit_box 30 5 0, 14); (unit_box 0 5 0, 15);
              (unit_box 20 5 0, 16); (unit_box 10 5 0, 17)])
          origin]
       {["time" := "0.25"]}).

(** An assembly without curve objects. *)
Definition empty_arguments : Arguments :=
  mkArguments 3 InvalidBox
    (mkAssembly "empty" [mkObjectInstance demo_mesh origin] ∅).
End demo.

(** ** Reading the node array *)

Definition leaf_range (n : NodeType) : option (nat * nat) :=
  match n with
  | Leaf item_index item_count _ => Some (item_index, item_count)
  | Interior _ _ _ => None
  end.

(** The item ranges of the leaves, in node order. *)
Definition leaf_ranges (nodes : list NodeType) : list (nat * nat) :=
  omap leaf_range nodes.

(** [chain b ranges e]: the ranges follow one another from [b] to [e]. *)
Fixpoint chain (b : nat) (ranges : list (nat * nat)) (e : nat) : Prop :=
  match ranges with
  | [] => b = e
  | range :: ranges' => range.1 = b ∧ chain (b + range.2) ranges' e
  end.

(** Item position [i] lies in the range of the leaf [n]. *)
Definition in_leaf (i : nat) (n : NodeType) : Prop :=
  match n with
  | Leaf item_index item_count _ => item_index ≤ i < item_index + item_count
  | Interior _ _ _ => False
  end.

(** The leaf ranges partition [0, size): every leaf range is a non-empty
    part of the interval and every position of the interval lies in the
    range of exactly one leaf node. *)
Definition leaves_partition (nodes : list NodeType) (size : nat) : Prop :=
  (∀ k item_index item_count bbox,
     nodes !! k = Some (Leaf item_index item_count bbox) →
     0 < item_count ∧ item_index + item_count ≤ size)
  ∧ ∀ i, i < size →
      ∃ k, (∃ n, nodes !! k = Some n ∧ in_leaf i n)
           ∧ ∀ k' n', nodes !! k' = Some n' → in_leaf i n' → k' = k.

(** The bounding box of every interior node of a subtree stored from index
    [base] on is the union of the bounding boxes of its two children. *)
Definition children_ok (base : nat) (nodes : list NodeType) : Prop :=
  ∀ k left_child right_child bbox,
    nodes !! k = Some (Interior left_child right_child bbox) →
    ∃ left_node right_node,
      base ≤ left_child ∧ base ≤ right_child
      ∧ nodes !! (left_child - base) = Some left_node
      ∧ nodes !! (right_child - base) = Some right_node
      ∧ bbox = aabb_insert (node_bbox left_node) (node_bbox right_node).


(** The leaf bound the builder enforces, read on the item ordering
    [ordering] the partitioner holds: a leaf holds at most [max_leaf_size]
    items, or a single item when [max_leaf_size] is smaller than 1, or a
    range of [ordering] on which terminating as a leaf is cheaper than the
    best candidate split. *)
Definition leaf_size_bounded_or_cheaper (bboxes : list GAABB3)
    (max_leaf_size : nat) (traversal_cost intersection_cost : Q)
    (ordering : list nat) (nodes : list NodeType) : Prop :=
  ∀ k item_index item_count bbox,
    nodes !! k = Some (Leaf item_index item_count bbox) →
    item_count ≤ max_leaf_size
    ∨ (max_leaf_size < 1 ∧ item_count ≤ 1)
    ∨ (bbox = compute_bbox bboxes ordering item_index
                (item_index + item_count)
       ∧ leaf_is_cheaper bboxes traversal_cost intersection_cost ordering
           item_index (item_index + item_count) bbox = true).

(** ** Reading the collected keys *)

(** Keys ordered by object instance index, then by curve index. *)
Definition key_lt (a b : CurveKey) : Prop :=
  object_instance_index a < object_instance_index b
  ∨ (object_instance_index a = object_instance_index b
     ∧ curve_index a < curve_index b).

(** The number of curves [collect_curves] takes from an object instance. *)
Definition collected_count `{Externals} (object_instance : ObjectInstance)
    : nat :=
  if bool_decide
       (get_model (get_object object_instance) = CurveObjectFactory_get_model)
  then length (get_curves (get_object object_instance))
  else 0.

(** * The shader as_maya_tripleShadingSwitch

    A colour is copied, never computed with, so its type is a parameter.
    [object_name] is what [getattribute("object:object_name", shape)]
    yields: the name when the attribute exists.  Reading [in_inTriple] past
    its end has no defined value here: [None]. *)

Section tripleShadingSwitch.
Variable color : Type.

(** The loop over [in_inShape], from index [i]. *)
Fixpoint switch_from (in_inTriple : list color) (shape : string) (i : nat)
    (rest : list string) (out_output : color) : option color :=
  match rest with
  | [] => Some out_output
  | name :: rest' =>
      if bool_decide (name = shape) then
        triple ← in_inTriple !! i;
        switch_from in_inTriple shape (S i) rest' triple
      else switch_from in_inTriple shape (S i) rest' out_output
  end.

Definition as_maya_tripleShadingSwitch (in_inTriple : list color)
    (in_inShape : list string) (in_default : color)
    (object_name : option string) : option color :=
  let out_output := in_default in
  match object_name with
  | Some shape => switch_from in_inTriple shape 0 in_inShape out_output
  | None => Some out_output
  end.
End tripleShadingSwitch.

(** * makefluffy *)

Module makefluffy.

(** The arithmetic of the tool is floating point and its sampling routines
    live in the foundation library; the development is parametric in
    them. *)
Class Numerics `{Externals} := {
  double : Type;
  Vector2d : Type;
  Vector3d : Type;
  RNG : Type;
  (* the literals 0.0, 0.5, 1.0 and 2.0 *)
  d0 : double;
  dhalf : double;
  d1 : double;
  d2 : double;
  (* == on double *)
  deqb : double → double → bool;
  dadd : double → double → double;
  dmul : double → double → double;
  ddiv : double → double → double;
  dneg : double → double;
  (* static_cast<double> *)
  double_of_size_t : nat → double;
  vadd : Vector3d → Vector3d → Vector3d;
  vsub : Vector3d → Vector3d → Vector3d;
  (* the product of a vector and a scalar *)
  vscale : double → Vector3d → Vector3d;
  (* v[i] *)
  vcomponent : Vector3d → nat → double;
  mkVector2d : double → double → Vector2d;
  cross : Vector3d → Vector3d → Vector3d;
  norm : Vector3d → double;
  is_normalized : Vector3d → bool;
  lerp : double → double → double → double;
  hammersley_sequence : list nat → nat → nat → Vector3d;
  sample_triangle_uniform : Vector2d → Vector3d;
  sample_sphere_uniform : Vector2d → Vector3d;
  (* MersenneTwister() *)
  rng_default : RNG;
  rand_double1 : RNG → double → double → double * RNG;
  rand_double2 : RNG → double * RNG;
  (* BezierCurve3d(points, widths) *)
  curve_from_points : list Vector3d → list double → BezierCurve3d;
  (* curve.split(child1, child2) *)
  split : BezierCurve3d → BezierCurve3d * BezierCurve3d;
  (* cdf.valid(), over the items inserted into the CDF *)
  cdf_valid : list (nat * double) → bool;
  (* cdf.prepare(): the CDF that is sampled, from the items inserted *)
  cdf_prepare : list (nat * double) → list (nat * double);
  (* cdf.sample(x), over a prepared CDF *)
  cdf_sample : list (nat * double) → double → nat * double;
  (* MeshObjectFactory::get_model() *)
  MeshObjectFactory_get_model : string;
  (* what an object instance carries besides its names *)
  ParamArray : Type;
  Transformd : Type;
  MaterialMappings : Type;
  (* the identifier given to the n-th entity created *)
  new_guid : nat → nat;
}.

Record FluffParams `{Numerics} := mkFluffParams {
  m_curve_count : nat;
  m_curve_length : double;
  m_root_width : double;
  m_tip_width : double;
  m_length_fuzziness : double;
  m_curliness : double;
  m_split_count : nat;
}.
Arguments mkFluffParams {_ _} _ _ _ _ _ _ _.

Record SupportTriangle `{Numerics} := mkSupportTriangle {
  m_v0 : Vector3d;
  m_v1 : Vector3d;
  m_v2 : Vector3d;
  m_normal : Vector3d;
  m_area : double;
}.
Arguments mkSupportTriangle {_ _} _ _ _ _ _.

(** The vertex indices of a triangle of a mesh. *)
Record Triangle := mkTriangle {
  v0_index : nat;
  v1_index : nat;
  v2_index : nat;
}.

(** A mesh object as [extract_support_triangles] reads it; [get_vertex] is
    [Vector3d(object.get_vertex(index))]. *)
Record MeshObject `{Numerics} := mkMeshObject {
  mesh_name : string;
  triangles : list Triangle;
  get_vertex : nat → Vector3d;
}.
Arguments mkMeshObject {_ _} _ _ _.

Section algorithm.
Context `{Num : Numerics}.

(** A CDF: its items with their weights, in insertion order.  [insert]
    appends; [valid], [prepare] and [sample] belong to the foundation
    library and are [cdf_valid], [cdf_prepare] and [cdf_sample]. *)
Definition CDF : Type := list (nat * double).

(** The loop of [extract_support_triangles] over the triangles still to
    visit.  [None]: the assertion [is_normalized(normal)] fails. *)
Fixpoint extract_from (object : MeshObject) (rest : list Triangle)
    (support_triangles : list SupportTriangle) (cdf : CDF)
    : option (list SupportTriangle * CDF) :=
  match rest with
  | [] => Some (support_triangles, cdf)
  | triangle :: rest' =>
      (* Retrieve object instance space vertices of the triangle. *)
      let v0 := get_vertex object (v0_index triangle) in
      let v1 := get_vertex object (v1_index triangle) in
      let v2 := get_vertex object (v2_index triangle) in
      (* Compute the geometric normal and the area of the triangle. *)
      let normal := cross (vsub v1 v0) (vsub v2 v0) in
      let normal_norm := norm normal in
      if deqb normal_norm d0 then
        extract_from object rest' support_triangles cdf
      else
        let rcp_normal_norm := ddiv d1 normal_norm in
        let area := dmul dhalf normal_norm in
        let normal := vscale rcp_normal_norm normal in
        (* assert(is_normalized(normal)); *)
        if is_normalized normal then
          (* Create and store the support triangle. *)
          let support_triangles :=
            support_triangles ++ [mkSupportTriangle v0 v1 v2 normal area] in
          (* Insert the support triangle into the CDF. *)
          let cdf := cdf ++ [(length support_triangles - 1, area)] in
          extract_from object rest' support_triangles cdf
        else None
  end.

(** A triangle is degenerate when the norm of its normal compares equal to
    0.0. *)
Definition degenerate (object : MeshObject) (triangle : Triangle) : bool :=
  let v0 := get_vertex object (v0_index triangle) in
  let v1 := get_vertex object (v1_index triangle) in
  let v2 := get_vertex object (v2_index triangle) in
  deqb (norm (cross (vsub v1 v0) (vsub v2 v0))) d0.

(** The support triangle stored for a triangle that is not degenerate. *)
Definition support_triangle_of (object : MeshObject) (triangle : Triangle)
    : SupportTriangle :=
  let v0 := get_vertex object (v0_index triangle) in
  let v1 := get_vertex object (v1_index triangle) in
  let v2 := get_vertex object (v2_index triangle) in
  let normal := cross (vsub v1 v0) (vsub v2 v0) in
  let normal_norm := norm normal in
  mkSupportTriangle v0 v1 v2 (vscale (ddiv d1 normal_norm) normal)
    (dmul dhalf normal_norm).

(** [extract_support_triangles]: the two vectors after the call.  [None]:
    an assertion fails, in the loop or [cdf.valid()] after it. *)
Definition extract_support_triangles (object : MeshObject)
    (support_triangles : list SupportTriangle) (cdf : CDF)
    : option (list SupportTriangle * CDF) :=
  '(support_triangles, cdf) ←
    extract_from object (triangles object) support_triangles cdf;
  (* assert(cdf.valid()); *)
  if cdf_valid cdf then
    (* cdf.prepare(); *)
    Some (support_triangles, cdf_prepare cdf)
  else None.

Definition rand_vector2d (rng : RNG) : Vector2d * RNG :=
  let '(x, rng) := rand_double2 rng in
  let '(y, rng) := rand_double2 rng in
  (mkVector2d x y, rng).

(** [object] is the vector of curves of the curve object; [push_curve]
    appends to it. *)
Fixpoint split_and_store (object : list BezierCurve3d) (curve : BezierCurve3d)
    (split_count : nat) : list BezierCurve3d :=
  match split_count with
  | S split_count' =>
      let '(child1, child2) := split curve in
      let object := split_and_store object child1 split_count' in
      split_and_store object child2 split_count'
  | 0 => object ++ [curve]
  end.

(** The pieces of [curve] after [split_count] rounds of splitting, from the
    first piece to the last. *)
Fixpoint pieces (curve : BezierCurve3d) (split_count : nat)
    : list BezierCurve3d :=
  match split_count with
  | S split_count' =>
      pieces (split curve).1 split_count' ++ pieces (split curve).2 split_count'
  | 0 => [curve]
  end.

(** ** Entities

    An object is a mesh object, a curve object or an object of another
    model, each with its name; an object instance refers to its object by
    name.  The containers of an assembly are vectors: [insert] appends,
    [get_by_index] indexes, [get_by_uid] finds the entity with the given
    identifier. *)

Definition UniqueID : Type := nat.

Inductive ObjectData :=
  | MeshObjectData (mesh : MeshObject)
  | CurveObjectData (name : string) (curves : list BezierCurve3d)
  | OtherObjectData (name model : string).

Record Object := mkObject {
  get_uid : UniqueID;
  data : ObjectData;
}.

Definition get_name (object : Object) : string :=
  match data object with
  | MeshObjectData mesh => mesh_name mesh
  | CurveObjectData name _ => name
  | OtherObjectData name _ => name
  end.

Definition get_model (object : Object) : string :=
  match data object with
  | MeshObjectData _ => MeshObjectFactory_get_model
  | CurveObjectData _ _ => CurveObjectFactory_get_model
  | OtherObjectData _ model => model
  end.

Record ObjectInstance := mkObjectInstance {
  instance_uid : UniqueID;
  instance_name : string;
  (* the name of the object the instance refers to *)
  object_name : string;
  get_parameters : ParamArray;
  get_transform : Transformd;
  get_front_material_mappings : MaterialMappings;
  get_back_material_mappings : MaterialMappings;
}.

Record Assembly := mkAssembly {
  objects : list Object;
  object_instances : list ObjectInstance;
}.

Definition get_by_uid (instances : list ObjectInstance) (uid : UniqueID)
    : option ObjectInstance :=
  find (λ instance, bool_decide (instance_uid instance = uid)) instances.

(** ** create_curve_object *)

(** The loop over the control points [p], [remaining] of them to go;
    [points] and [widths] hold the entries written so far, [point0] is
    [points[0]]. *)
Fixpoint grow_control_points (params : FluffParams) (st : SupportTriangle)
    (length : double) (control_point_count : nat) (point0 : Vector3d)
    (p remaining : nat) (points : list Vector3d) (widths : list double)
    (rng : RNG) : list Vector3d * list double * RNG :=
  match remaining with
  | 0 => (points, widths, rng)
  | S remaining' =>
      let r :=
        ddiv (double_of_size_t p)
          (double_of_size_t (control_point_count - 1)) in
      let '(v, rng) := rand_vector2d rng in
      let f := vscale (m_curliness params) (sample_sphere_uniform v) in
      let point :=
        vadd point0 (vscale length (vadd (vscale r (m_normal st)) f)) in
      let width := lerp (m_root_width params) (m_tip_width params) r in
      grow_control_points params st length control_point_count point0 (S p)
        remaining' (points ++ [point]) (widths ++ [width]) rng
  end.

(** The loop over the curves, from curve [i] with [remaining] curves to go.
    [None]: the sampled triangle index is not a position of
    [support_triangles], where the source reads outside the vector. *)
Fixpoint create_curves (support_triangles : list SupportTriangle) (cdf : CDF)
    (params : FluffParams) (control_point_count : nat) (i remaining : nat)
    (rng : RNG) (curve_object : list BezierCurve3d)
    : option (list BezierCurve3d) :=
  match remaining with
  | 0 => Some curve_object
  | S remaining' =>
      let s := hammersley_sequence [2; 3] i (m_curve_count params) in
      let triangle_index := (cdf_sample cdf (vcomponent s 0)).1 in
      st ← support_triangles !! triangle_index;
      let bary :=
        sample_triangle_uniform
          (mkVector2d (vcomponent s 1) (vcomponent s 2)) in
      let point0 :=
        vadd (vadd (vscale (vcomponent bary 0) (m_v0 st))
                   (vscale (vcomponent bary 1) (m_v1 st)))
             (vscale (vcomponent bary 2) (m_v2 st)) in
      let width0 := m_root_width params in
      let '(f, rng) :=
        rand_double1 rng (dneg (m_length_fuzziness params))
          (m_length_fuzziness params) in
      let length := dmul (m_curve_length params) (dadd d1 f) in
      let '(points, widths, rng) :=
        grow_control_points params st length control_point_count point0 1
          (control_point_count - 1) [point0] [width0] rng in
      let curve := curve_from_points points widths in
      create_curves support_triangles cdf params control_point_count (S i)
        remaining' rng
        (split_and_store curve_object curve (m_split_count params))
  end.

(** [create_curve_object]: the name and the curves of the curve object it
    creates for [support_object].  [None]: an assertion fails or a read
    falls outside [support_triangles]. *)
Definition create_curve_object (assembly : Assembly)
    (support_object : MeshObject) (params : FluffParams)
    : option (string * list BezierCurve3d) :=
  let ControlPointCount := 4 in
  '(support_triangles, cdf) ←
    extract_support_triangles support_object [] [];
  let curve_object_name := mesh_name support_object +:+ "_curves" in
  curves ←
    create_curves support_triangles cdf params ControlPointCount
      0 (m_curve_count params) rng_default [];
  Some (curve_object_name, curves).
End algorithm.

(** ** make_fluffy *)

(** The outcome of a run: it finished, it reached a point where the source
    has no defined behaviour (a cast to the wrong object type, a read
    outside a vector, a null instance), or the bound on the number of loop
    iterations was reached. *)
Inductive Result (A : Type) :=
  | Finished (a : A)
  | Undefined
  | OutOfFuel.
Arguments Finished {A} a.
Arguments Undefined {A}.
Arguments OutOfFuel {A}.

Section make_fluffy.
Context `{Num : Numerics}.
(** [object_instance.find_object()], given the objects of the assembly. *)
Variable find_object : list Object → ObjectInstance → option Object.

(** One step of the loop that links object instances to objects:
    [objects_to_instances[object->get_uid()].push_back(uid)]. *)
Definition link_instance (objects : list Object)
    (objects_to_instances : gmap UniqueID (list UniqueID))
    (object_instance : ObjectInstance) : gmap UniqueID (list UniqueID) :=
  match find_object objects object_instance with
  | Some object =>
      <[get_uid object :=
          default [] (objects_to_instances !! get_uid object)
            ++ [instance_uid object_instance]]> objects_to_instances
  | None => objects_to_instances
  end.

(** The loop over the support instances still to visit: one instance of the
    curve object per instance of the support object.  [created] counts the
    entities created so far. *)
Fixpoint insert_curve_instances (curve_object_name : string)
    (rest : list UniqueID) (instances : list ObjectInstance) (created : nat)
    : option (list ObjectInstance * nat) :=
  match rest with
  | [] => Some (instances, created)
  | uid :: rest' =>
      support_instance ← get_by_uid instances uid;
      let curve_object_instance_name := curve_object_name +:+ "_inst" in
      let curve_object_instance :=
        mkObjectInstance (new_guid created) curve_object_instance_name
          curve_object_name
          (get_parameters support_instance)
          (get_transform support_instance)
          (get_front_material_mappings support_instance)
          (get_back_material_mappings support_instance) in
      insert_curve_instances curve_object_name rest'
        (instances ++ [curve_object_instance]) (S created)
  end.

(** The index-based loop over the objects, from index [i]; the objects it
    inserts are visited in turn. *)
Fixpoint fluff_objects (fuel : nat) (params : FluffParams)
    (objects_to_instances : gmap UniqueID (list UniqueID)) (i : nat)
    (assembly : Assembly) (created : nat) : Result (Assembly * nat) :=
  match fuel with
  | 0 => OutOfFuel
  | S fuel' =>
      match objects assembly !! i with
      | None => Finished (assembly, created)
      | Some object =>
          if bool_decide (get_model object ≠ MeshObjectFactory_get_model)
          then
            fluff_objects fuel' params objects_to_instances (S i)
              assembly created
          else if
            bool_decide (String.index 0 "light" (get_name object) ≠ None)
          then
            fluff_objects fuel' params objects_to_instances (S i)
              assembly created
          else
            match data object with
            | MeshObjectData mesh =>
                match create_curve_object assembly mesh params with
                | None => Undefined
                | Some (curve_object_name, curves) =>
                    let curve_object :=
                      mkObject (new_guid created)
                        (CurveObjectData curve_object_name curves) in
                    let support_instances :=
                      default [] (objects_to_instances !! get_uid object) in
                    match
                      insert_curve_instances curve_object_name
                        support_instances (object_instances assembly)
                        (S created)
                    with
                    | None => Undefined
                    | Some (instances, created') =>
                        fluff_objects fuel' params objects_to_instances (S i)
                          (mkAssembly (objects assembly ++ [curve_object])
                             instances)
                          created'
                    end
                end
            | _ => Undefined
            end
      end
  end.

(** [make_fluffy] on an assembly; [fuel] bounds the number of iterations of
    the loop over the objects. *)
Definition make_fluffy (fuel : nat) (assembly : Assembly)
    (params : FluffParams) : Result (Assembly * nat) :=
  (* Link object instances to objects. *)
  let objects_to_instances :=
    foldl (link_instance (objects assembly)) ∅ (object_instances assembly) in
  fluff_objects fuel params objects_to_instances 0 assembly 0.

End make_fluffy.

(** The objects [make_fluffy] covers with curves: mesh objects whose name
    does not contain "light". *)
Definition is_support `{Numerics} (object : Object) : bool :=
  bool_decide (get_model object = MeshObjectFactory_get_model)
  && bool_decide (String.index 0 "light" (get_name object) = None).

(** [curve_object] is the curve object made for the mesh object
    [support]. *)
Definition curve_object_for `{Numerics} (params : FluffParams)
    (support curve_object : Object) : Prop :=
  ∃ mesh curves,
    data support = MeshObjectData mesh
    ∧ create_curve_object (mkAssembly [] []) mesh params
      = Some (mesh_name mesh +:+ "_curves", curves)
    ∧ data curve_object
      = CurveObjectData (mesh_name mesh +:+ "_curves") curves.

(** [instance] is an instance of the curve object named [curve_object_name]
    made after the instance with identifier [uid] among [instances]. *)
Definition curve_instance_for `{Numerics} (instances : list ObjectInstance)
    (curve_object_name : string) (uid : UniqueID) (instance : ObjectInstance)
    : Prop :=
  ∃ support_instance,
    get_by_uid instances uid = Some support_instance
    ∧ instance_name instance = curve_object_name +:+ "_inst"
    ∧ object_name instance = curve_object_name
    ∧ get_parameters instance = get_parameters support_instance
    ∧ get_transform instance = get_transform support_instance
    ∧ get_front_material_mappings instance
      = get_front_material_mappings support_instance
    ∧ get_back_material_mappings instance
      = get_back_material_mappings support_instance.
End makefluffy.

(** ** A small mesh to run makefluffy on

    Scalars are rationals, the norm is the 1-norm, the samplers return
    fixed values and the random numbers count the draws. *)

Definition q3_map2 (f : Q → Q → Q) (a b : Q * Q * Q) : Q * Q * Q :=
  (f a.1.1 b.1.1, f a.1.2 b.1.2, f a.2 b.2).

(** A curve of the small scene split in two: the tag, read as a length, is
    shared out between the halves. *)
Definition demo_split (curve : @BezierCurve3d demo_externals)
    : @BezierCurve3d demo_externals * @BezierCurve3d demo_externals :=
  ((curve.1, curve.2 / 2), (curve.1, curve.2 - curve.2 / 2)).

Definition demo_curve_from_points (points : list (Q * Q * Q))
    (widths : list Q) : @BezierCurve3d demo_externals :=
  (InvalidBox, 8).

Definition demo_norm (v : Q * Q * Q) : Q :=
  Qplus (Qplus (Qabs v.1.1) (Qabs v.1.2)) (Qabs v.2).

(** A CDF is valid when the sum of its weights is positive; preparing it
    divides every weight by that sum. *)
Definition demo_weight_sum (cdf : list (nat * Q)) : Q :=
  foldr (λ item acc, Qplus item.2 acc) 0%Q cdf.

Definition demo_cdf_valid (cdf : list (nat * Q)) : bool :=
  negb (Qle_bool (demo_weight_sum cdf) 0%Q).

Definition demo_cdf_prepare (cdf : list (nat * Q)) : list (nat * Q) :=
  (λ item, (item.1, Qdiv item.2 (demo_weight_sum cdf))) <$> cdf.

Definition demo_numerics : @makefluffy.Numerics demo_externals := {|
  makefluffy.double := Q;
  makefluffy.Vector2d := Q * Q;
  makefluffy.Vector3d := Q * Q * Q;
  makefluffy.RNG := nat;
  makefluffy.d0 := 0%Q;
  makefluffy.dhalf := (1 # 2)%Q;
  makefluffy.d1 := 1%Q;
  makefluffy.d2 := 2%Q;
  makefluffy.deqb := Qeq_bool;
  makefluffy.dadd := Qplus;
  makefluffy.dmul := Qmult;
  makefluffy.ddiv := Qdiv;
  makefluffy.dneg := Qopp;
  makefluffy.double_of_size_t := λ n, inject_Z (Z.of_nat n);
  makefluffy.vadd := q3_map2 Qplus;
  makefluffy.vsub := q3_map2 Qminus;
  makefluffy.vscale := λ k v, (Qmult k v.1.1, Qmult k v.1.2, Qmult k v.2);
  makefluffy.vcomponent := λ v i,
    match i with 0 => v.1.1 | 1 => v.1.2 | _ => v.2 end;
  makefluffy.mkVector2d := pair;
  makefluffy.cross := λ a b,
    (Qminus (Qmult a.1.2 b.2) (Qmult a.2 b.1.2),
     Qminus (Qmult a.2 b.1.1) (Qmult a.1.1 b.2),
     Qminus (Qmult a.1.1 b.1.2) (Qmult a.1.2 b.1.1));
  makefluffy.norm := demo_norm;
  makefluffy.is_normalized := λ v, Qeq_bool (demo_norm v) 1%Q;
  makefluffy.lerp := λ a b t, Qplus a (Qmult t (Qminus b a));
  makefluffy.hammersley_sequence := λ _ i n,
    (inject_Z (Z.of_nat i), 0%Q, 0%Q);
  makefluffy.sample_triangle_uniform := λ _, (1 # 3, 1 # 3, 1 # 3)%Q;
  makefluffy.sample_sphere_uniform := λ _, (0, 0, 1)%Q;
  makefluffy.rng_default := 0;
  makefluffy.rand_double1 := λ rng a b, (a, S rng);
  makefluffy.rand_double2 := λ rng, (0%Q, S rng);
  makefluffy.curve_from_points := demo_curve_from_points;
  makefluffy.split := demo_split;
  makefluffy.cdf_valid := demo_cdf_valid;
  makefluffy.cdf_prepare := demo_cdf_prepare;
  makefluffy.cdf_sample := λ cdf x, default (0, 0%Q) (head cdf);
  makefluffy.MeshObjectFactory_get_model := "mesh_object";
  makefluffy.ParamArray := unit;
  makefluffy.Transformd := Vector3;
  makefluffy.MaterialMappings := unit;
  makefluffy.new_guid := λ n, 1000 + n;
|}.

Section demo_mesh.
#[local] Existing Instance demo_externals.
#[local] Existing Instance demo_numerics.

Definition demo_vertex (index : nat) : Q * Q * Q :=
  match index with
  | 0 => (0, 0, 0)%Q
  | 1 => (1, 0, 0)%Q
  | 2 => (0, 1, 0)%Q
  | _ => (2, 0, 0)%Q
  end.

(** A triangle, a degenerate triangle (three points on a line) and a
    second triangle. *)
Definition demo_support : makefluffy.MeshObject :=
  makefluffy.mkMeshObject "plane"
    [makefluffy.mkTriangle 0 1 2; makefluffy.mkTriangle 0 1 3;
     makefluffy.mkTriangle 1 3 2]
    demo_vertex.

(** A mesh with nothing but a degenerate triangle. *)
Definition demo_flat : makefluffy.MeshObject :=
  makefluffy.mkMeshObject "line" [makefluffy.mkTriangle 0 1 3] demo_vertex.

Definition demo_params : makefluffy.FluffParams :=
  makefluffy.mkFluffParams 3 1%Q (1 # 10)%Q (1 # 100)%Q 0%Q 0%Q 2.

(** An object instance is bound to the first object with the name it
    refers to. *)
Definition demo_find_object (objects : list makefluffy.Object)
    (object_instance : makefluffy.ObjectInstance) : option makefluffy.Object :=
  find (λ object,
          bool_decide (makefluffy.get_name object
                       = makefluffy.object_name object_instance))
    objects.

(** A plane with two instances, a camera and a mesh that is a light. *)
Definition demo_assembly : makefluffy.Assembly :=
  makefluffy.mkAssembly
    [makefluffy.mkObject 1 (makefluffy.MeshObjectData demo_support);
     makefluffy.mkObject 2 (makefluffy.OtherObjectData "rig" "camera");
     makefluffy.mkObject 3
       (makefluffy.MeshObjectData
          (makefluffy.mkMeshObject "area_light"
             [makefluffy.mkTriangle 0 1 3] demo_vertex))]
    [makefluffy.mkObjectInstance 10 "plane_inst" "plane" tt
       (mkVector3 0 0 0) tt tt;
     makefluffy.mkObjectInstance 11 "light_inst" "area_light" tt
       (mkVector3 0 0 9) tt tt;
     makefluffy.mkObjectInstance 12 "plane_inst2" "plane" tt
       (mkVector3 5 0 0) tt tt].

(** An assembly without a mesh to cover. *)
Definition demo_bare_assembly : makefluffy.Assembly :=
  makefluffy.mkAssembly
    [makefluffy.mkObject 2 (makefluffy.OtherObjectData "rig" "camera");
     makefluffy.mkObject 4 (makefluffy.CurveObjectData "plane_curves" [])]
    [makefluffy.mkObjectInstance 13 "rig_inst" "rig" tt
       (mkVector3 0 0 0) tt tt].
End demo_mesh.

(** * Properties *)

(** ** The geometry collector *)

Section collect_properties.
Context `{Ext : Externals}.

Lemma store_curves_imap i transform rest : ∀ j out,
  store_curves i transform j rest out =
    (out.1 ++ (imap (λ k curve, (transform_curve curve transform,
                                 mkCurveKey i (j + k) 0)) rest).*1,
     out.2 ++ (imap (λ k curve, (transform_curve curve transform,
                                 mkCurveKey i (j + k) 0)) rest).*2).
Proof.
  induction rest as [|curve rest IH]; intros j [curves keys]; simpl.
  - by rewrite !app_nil_r.
  - rewrite IH. simpl. rewrite <- !app_assoc. simpl.
    rewrite Nat.add_0_r.
    replace (imap ((λ k c, (transform_curve c transform,
                            mkCurveKey i (j + k) 0)) ∘ S) rest)
      with (imap (λ k c, (transform_curve c transform,
                          mkCurveKey i (S j + k) 0)) rest); [done|].
    apply imap_ext. intros k c _. simpl. do 3 f_equal. lia.
Qed.

Lemma collect_from_emitted rest : ∀ i out,
  collect_from i rest out =
    (out.1 ++ (mjoin (imap (λ k, emitted_by (i + k)) rest)).*1,
     out.2 ++ (mjoin (imap (λ k, emitted_by (i + k)) rest)).*2).
Proof.
  induction rest as [|inst rest IH]; intros i [curves keys]; simpl.
  - by rewrite !app_nil_r.
  - assert (Hshift :
      imap ((λ k, emitted_by (i + k)) ∘ S) rest
      = imap (λ k, emitted_by (S i + k)) rest).
    { apply imap_ext. intros k x _. simpl. f_equal. lia. }
    rewrite Hshift, Nat.add_0_r, !fmap_app.
    unfold emitted_by at 1 3.
    destruct (bool_decide
      (get_model (get_object inst) = CurveObjectFactory_get_model)).
    + rewrite IH, store_curves_imap. simpl. by rewrite <- !app_assoc.
    + rewrite IH. done.
Qed.

Lemma collect_curves_emitted arguments out :
  collect_curves arguments out =
    (out.1 ++ (emitted arguments).*1, out.2 ++ (emitted arguments).*2).
Proof. unfold collect_curves, emitted. by rewrite collect_from_emitted. Qed.

Lemma emitted_material arguments :
  Forall (λ entry, material_index entry.2 = 0) (emitted arguments).
Proof.
  unfold emitted. apply Forall_forall. intros entry Hin.
  apply list_elem_of_join in Hin as (l & Hentry & Hl).
  apply elem_of_lookup_imap in Hl as (i & inst & -> & _).
  unfold emitted_by in Hentry.
  case_bool_decide; [|by apply elem_of_nil in Hentry].
  apply elem_of_lookup_imap in Hentry as (j & curve & -> & _). done.
Qed.

(** C6.  [collect_curves] appends to the two output vectors exactly the
    documented sequence: the object instances are visited in index order,
    an instance whose object does not carry the curve model tag
    contributes nothing, an instance whose object does contributes one
    transformed curve and one key per curve in curve order; so the two
    vectors collected from scratch have equal length. *)
Theorem collect_curves_refines_emitted (arguments : Arguments)
    (out : CurveVectors) :
  collect_curves arguments out =
    (out.1 ++ (emitted arguments).*1, out.2 ++ (emitted arguments).*2)
  ∧ length (collect_curves arguments ([], [])).1
    = length (collect_curves arguments ([], [])).2.
Proof.
  split; [apply collect_curves_emitted|].
  rewrite collect_curves_emitted. simpl. by rewrite !length_fmap.
Qed.

(** C9.  Every key that [collect_curves] appends to the key vector carries
    material index 0. *)
Theorem collect_curves_material_zero (arguments : Arguments)
    (out : CurveVectors) :
  Forall (λ key, material_index key = 0)
    (drop (length out.2) (collect_curves arguments out).2).
Proof.
  rewrite collect_curves_emitted. simpl. rewrite drop_app_length.
  apply Forall_fmap. apply (emitted_material arguments).
Qed.
End collect_properties.

(** ** Bounding boxes *)

Lemma vec_min_comm a b : vec_min a b = vec_min b a.
Proof. unfold vec_min. f_equal; lia. Qed.

Lemma vec_max_comm a b : vec_max a b = vec_max b a.
Proof. unfold vec_max. f_equal; lia. Qed.

Lemma vec_min_assoc a b c : vec_min a (vec_min b c) = vec_min (vec_min a b) c.
Proof. unfold vec_min. simpl. f_equal; lia. Qed.

Lemma vec_max_assoc a b c : vec_max a (vec_max b c) = vec_max (vec_max a b) c.
Proof. unfold vec_max. simpl. f_equal; lia. Qed.

Lemma aabb_insert_comm a b : aabb_insert a b = aabb_insert b a.
Proof.
  destruct a, b; simpl; try done.
  by rewrite vec_min_comm, vec_max_comm.
Qed.

Lemma aabb_insert_assoc a b c :
  aabb_insert a (aabb_insert b c) = aabb_insert (aabb_insert a b) c.
Proof.
  destruct a, b, c; simpl; try done.
  by rewrite vec_min_assoc, vec_max_assoc.
Qed.

Lemma aabb_insert_invalid_r a : aabb_insert a InvalidBox = a.
Proof. by destruct a. Qed.

Section range_properties.
Variable bboxes : list GAABB3.

Lemma bbox_of_items_app l r :
  bbox_of_items bboxes (l ++ r)
  = aabb_insert (bbox_of_items bboxes l) (bbox_of_items bboxes r).
Proof.
  induction l as [|x l IH]; simpl; [done|].
  by rewrite IH, aabb_insert_assoc.
Qed.

Lemma bbox_of_items_perm l r :
  l ≡ₚ r → bbox_of_items bboxes l = bbox_of_items bboxes r.
Proof.
  induction 1 as [|x l r _ IH|x y l|l m r _ IH1 _ IH2]; simpl.
  - done.
  - by rewrite IH.
  - rewrite !aabb_insert_assoc. f_equal. apply aabb_insert_comm.
  - congruence.
Qed.

Lemma slice_middle (pre mid post : list nat) b e :
  b = length pre → e = b + length mid →
  slice (pre ++ mid ++ post) b e = mid.
Proof.
  intros -> ->. unfold slice.
  rewrite drop_app_length.
  replace (length pre + length mid - length pre) with (length mid) by lia.
  apply take_app_length.
Qed.

Lemma compute_bbox_middle (pre mid post : list nat) b e :
  b = length pre → e = b + length mid →
  compute_bbox bboxes (pre ++ mid ++ post) b e = bbox_of_items bboxes mid.
Proof. intros. unfold compute_bbox. by rewrite slice_middle. Qed.
End range_properties.

(** ** The partitioner *)

Section partition_properties.
Variable bboxes : list GAABB3.
Variable max_leaf_size : nat.
Variable interior_node_traversal_cost : Q.
Variable item_intersection_cost : Q.

#[local] Abbreviation sah_partition :=
  (partition bboxes max_leaf_size interior_node_traversal_cost
     item_intersection_cost).
#[local] Abbreviation sah_best_split :=
  (best_split bboxes interior_node_traversal_cost item_intersection_cost).
#[local] Abbreviation sah_split_cost :=
  (split_cost bboxes interior_node_traversal_cost item_intersection_cost).
#[local] Existing Instance item_le_dec.

#[local] Instance item_le_total d : Total (item_le bboxes d).
Proof. intros a b. unfold item_le. lia. Qed.

#[local] Instance item_le_transitive d : Transitive (item_le bboxes d).
Proof. intros a b c. unfold item_le. lia. Qed.

#[local] Instance item_le_antisymm d : AntiSymm (=) (item_le bboxes d).
Proof. intros a b. unfold item_le. lia. Qed.

(** Sorting along an axis forgets how the items were arranged: centers
    order the items and equal centers are ordered by item index, so a
    range has one sorted arrangement. *)
Lemma merge_sort_arrangement d (mid mid' : list nat) :
  mid ≡ₚ mid' →
  merge_sort (item_le bboxes d) mid = merge_sort (item_le bboxes d) mid'.
Proof.
  intros Hperm. apply (Sorted_unique (item_le bboxes d)).
  - apply Sorted_merge_sort, _.
  - apply Sorted_merge_sort, _.
  - by rewrite !merge_sort_Permutation.
Qed.

Lemma partition_arrangement (pre mid mid' post : list nat) bbox :
  mid ≡ₚ mid' →
  sah_partition (pre ++ mid ++ post) (length pre) (length pre + length mid)
    bbox
  = sah_partition (pre ++ mid' ++ post) (length pre)
      (length pre + length mid') bbox.
Proof.
  intros Hperm. unfold partition, leaf_is_cheaper.
  rewrite (slice_middle pre mid post _ _ eq_refl eq_refl).
  rewrite (slice_middle pre mid' post _ _ eq_refl eq_refl).
  rewrite !take_app_length.
  rewrite !(app_assoc pre _ post).
  rewrite !drop_app_length' by (rewrite length_app; lia).
  rewrite <- (Permutation_length Hperm).
  by rewrite (merge_sort_arrangement _ mid mid' Hperm).
Qed.

Lemma best_split_elem bbox sorted ks : ∀ best,
  sah_best_split bbox sorted best ks ∈ best :: ks.
Proof.
  induction ks as [|k ks IH]; intros best; simpl; [by left|].
  destruct (Qle_bool _ _).
  - destruct (proj1 (elem_of_cons _ _ _) (IH best)) as [->|?];
      [by left|do 2 right; done].
  - right. apply IH.
Qed.

(** A proposed split keeps the items outside the range in place, permutes
    the items of the range and leaves both sub-ranges non-empty. *)
Lemma partition_split (pre mid post : list nat) b e bbox ordering pivot :
  b = length pre → e = b + length mid → 2 ≤ length mid →
  sah_partition (pre ++ mid ++ post) b e bbox = Some (ordering, pivot) →
  ∃ l r,
    ordering = pre ++ (l ++ r) ++ post ∧ l ++ r ≡ₚ mid
    ∧ pivot = b + length l ∧ 0 < length l ∧ 0 < length r.
Proof.
  intros Hb He Hlen. unfold partition.
  case_bool_decide; [done|].
  destruct (leaf_is_cheaper _ _ _ _ _ _ _); [done|].
  rewrite (slice_middle pre mid post b e Hb He).
  set (sorted := merge_sort _ mid).
  set (k := sah_best_split bbox sorted 1 (seq 2 (e - b - 2))).
  assert (Hsorted : sorted ≡ₚ mid) by apply merge_sort_Permutation.
  assert (Hk : 1 ≤ k ∧ k < length mid).
  { pose proof (best_split_elem bbox sorted (seq 2 (e - b - 2)) 1) as Hin.
    fold k in Hin. apply elem_of_cons in Hin as [->|Hin]; [lia|].
    apply elem_of_seq in Hin. lia. }
  intros [= <- <-].
  exists (take k sorted), (drop k sorted).
  assert (Hlen' : length sorted = length mid) by by rewrite Hsorted.
  rewrite take_drop, length_take, length_drop.
  repeat split; try lia; [|done].
  subst b e. rewrite take_app_length. do 2 f_equal.
  rewrite (app_assoc pre mid post), drop_app_length'; [done|].
  rewrite length_app. lia.
Qed.

(** The candidate [best_split] answers is the first cheapest one of
    [best :: ks]. *)
Lemma best_split_first_cheapest bbox sorted ks : ∀ best,
  ∃ i,
    (best :: ks) !! i = Some (sah_best_split bbox sorted best ks)
    ∧ ∀ j k, (best :: ks) !! j = Some k →
        (sah_split_cost bbox sorted (sah_best_split bbox sorted best ks)
         <= sah_split_cost bbox sorted k)%Q
        ∧ (j < i →
           ¬ (sah_split_cost bbox sorted k
              <= sah_split_cost bbox sorted
                   (sah_best_split bbox sorted best ks))%Q).
Proof.
  induction ks as [|k ks IH]; intros best.
  - exists 0. split; [done|]. intros [|j] k' Hk'; [|done].
    injection Hk' as <-. split; [apply Qle_refl|lia].
  - simpl. destruct (Qle_bool _ _) eqn:Hle.
    + apply Qle_bool_iff in Hle.
      destruct (IH best) as (i & Hi & Hmin).
      exists (match i with 0 => 0 | S i' => S (S i') end). split.
      { by destruct i. }
      intros [|[|j]] k' Hk'.
      * apply (Hmin 0 k') in Hk' as [? Hlt]. split; [done|].
        intros ?. apply Hlt. destruct i; lia.
      * injection Hk' as <-.
        destruct (Hmin 0 best eq_refl) as [Hbest Hlt]. split.
        { by eapply Qle_trans. }
        intros Hj Hk. apply Hlt; [destruct i; lia|].
        by eapply Qle_trans.
      * apply (Hmin (S j) k') in Hk' as [? Hlt]. split; [done|].
        intros ?. apply Hlt. destruct i; lia.
    + assert (Hlt : ¬ (sah_split_cost bbox sorted best
                       <= sah_split_cost bbox sorted k)%Q).
      { intros Hle'. apply Qle_bool_iff in Hle'. congruence. }
      destruct (IH k) as (i & Hi & Hmin).
      exists (S i). split; [done|].
      intros [|j] k' Hk'.
      * injection Hk' as <-.
        destruct (Hmin 0 k eq_refl) as [Hk _].
        assert (Hkb : (sah_split_cost bbox sorted k
                       < sah_split_cost bbox sorted best)%Q)
          by by apply Qnot_le_lt.
        split.
        { apply Qlt_le_weak. by eapply Qle_lt_trans. }
        intros _ Hb. apply Hlt. eapply Qle_trans; [exact Hb|done].
      * apply (Hmin j k') in Hk' as [? Hlt']. split; [done|].
        intros ?. apply Hlt'. lia.
Qed.

(** A proposed split, with every tie-break it resolves: the range is left
    sorted along the dominant axis of its box by center, equal centers by
    item index, and the pivot is the lowest of the cheapest split
    positions. *)
Lemma partition_tie_breaks (pre mid post : list nat) bbox ordering pivot :
  2 ≤ length mid →
  sah_partition (pre ++ mid ++ post) (length pre) (length pre + length mid)
    bbox = Some (ordering, pivot) →
  ∃ sorted,
    ordering = pre ++ sorted ++ post ∧ sorted ≡ₚ mid
    ∧ StronglySorted (item_le bboxes (dominant_axis bbox)) sorted
    ∧ length pre < pivot < length pre + length mid
    ∧ ∀ k, 0 < k < length mid →
        (sah_split_cost bbox sorted (pivot - length pre)
         <= sah_split_cost bbox sorted k)%Q
        ∧ (k < pivot - length pre →
           ¬ (sah_split_cost bbox sorted k
              <= sah_split_cost bbox sorted (pivot - length pre))%Q).
Proof.
  intros Hlen. unfold partition.
  case_bool_decide; [done|].
  destruct (leaf_is_cheaper _ _ _ _ _ _ _); [done|].
  rewrite (slice_middle pre mid post _ _ eq_refl eq_refl).
  rewrite take_app_length, (app_assoc pre mid post).
  rewrite drop_app_length' by (rewrite length_app; lia).
  replace (length pre + length mid - length pre) with (length mid) by lia.
  set (sorted := merge_sort _ mid).
  destruct (best_split_first_cheapest bbox sorted (seq 2 (length mid - 2)) 1)
    as (i & Hi & Hmin).
  set (k := sah_best_split bbox sorted 1 (seq 2 (length mid - 2))) in *.
  change (1 :: seq 2 (length mid - 2)) with (seq 1 (S (length mid - 2)))
    in Hi, Hmin.
  apply lookup_seq in Hi as [Hk Hi].
  intros [= <- <-]. exists sorted.
  split; [done|]. split; [apply merge_sort_Permutation|].
  split; [apply StronglySorted_merge_sort; apply _|].
  split; [lia|]. intros k' Hk'.
  replace (length pre + k - length pre) with k by lia.
  destruct (Hmin (k' - 1) k') as [Hle Hlt].
  { apply lookup_seq. lia. }
  split; [done|]. intros ?. apply Hlt. lia.
Qed.
End partition_properties.

(** The dominant axis is an axis of largest extent, the lowest one when
    several axes have the largest extent. *)
Lemma dominant_axis_lowest bbox d :
  d < 3 →
  dominant_axis bbox < 3
  ∧ (component d (extent bbox)
     ≤ component (dominant_axis bbox) (extent bbox))%Z
  ∧ (d < dominant_axis bbox →
     (component d (extent bbox)
      < component (dominant_axis bbox) (extent bbox))%Z).
Proof.
  intros Hd. unfold dominant_axis.
  repeat case_bool_decide; destruct d as [|[|[|d]]]; simpl; lia.
Qed.

(** ** The node array *)

Lemma chain_app b m e ranges ranges' :
  chain b ranges m → chain m ranges' e → chain b (ranges ++ ranges') e.
Proof.
  revert b. induction ranges as [|range ranges IH]; intros b; simpl.
  - by intros ->.
  - intros [-> Hrest] Hnext. split; [done|]. by apply IH.
Qed.

Lemma chain_bounds ranges : ∀ b e,
  chain b ranges e →
  b ≤ e
  ∧ ∀ range, range ∈ ranges → b ≤ range.1 ∧ range.1 + range.2 ≤ e.
Proof.
  induction ranges as [|range ranges IH]; intros b e; simpl.
  - intros ->. split; [done|]. intros range Hin. by apply elem_of_nil in Hin.
  - intros [Hfirst Hrest]. destruct (IH _ _ Hrest) as [Hle Hall].
    split; [lia|]. intros range' Hin.
    apply elem_of_cons in Hin as [->|Hin]; [lia|].
    specialize (Hall _ Hin). lia.
Qed.

Lemma leaf_ranges_interior left_child right_child bbox nodes nodes' :
  leaf_ranges (Interior left_child right_child bbox :: nodes ++ nodes')
  = leaf_ranges nodes ++ leaf_ranges nodes'.
Proof. unfold leaf_ranges. simpl. apply omap_app. Qed.

Lemma lookup_cons_offset {A} (x : A) (l : list A) base i :
  base < i → (x :: l) !! (i - base) = l !! (i - S base).
Proof. intros. by replace (i - base) with (S (i - S base)) by lia. Qed.

Lemma children_ok_interior base bbox nodes nodes' left_node right_node :
  children_ok (S base) nodes →
  children_ok (S base + length nodes) nodes' →
  nodes !! 0 = Some left_node → nodes' !! 0 = Some right_node →
  bbox = aabb_insert (node_bbox left_node) (node_bbox right_node) →
  children_ok base
    (Interior (S base) (S base + length nodes) bbox :: nodes ++ nodes').
Proof.
  intros Hleft Hright Hl Hr Hbbox k lc rc bb Hk.
  destruct k as [|k].
  - injection Hk as <- <- <-. exists left_node, right_node.
    rewrite !lookup_cons_offset by lia.
    split; [lia|]. split; [lia|]. split; [|split; [|done]].
    + rewrite lookup_app_l by (apply lookup_lt_Some in Hl; lia).
      rewrite <- Hl. f_equal. lia.
    + rewrite lookup_app_r by lia. rewrite <- Hr. f_equal. lia.
  - change ((nodes ++ nodes') !! k = Some (Interior lc rc bb)) in Hk.
    destruct (decide (k < length nodes)) as [Hlt|Hge].
    + rewrite lookup_app_l in Hk by done.
      destruct (Hleft _ _ _ _ Hk) as (ln & rn & ? & ? & Hln & Hrn & ->).
      exists ln, rn. rewrite !lookup_cons_offset by lia.
      rewrite !lookup_app_l by (by eapply lookup_lt_Some).
      repeat split; try done; lia.
    + rewrite lookup_app_r in Hk by lia.
      destruct (Hright _ _ _ _ Hk) as (ln & rn & ? & ? & Hln & Hrn & ->).
      exists ln, rn. rewrite !lookup_cons_offset by lia.
      rewrite !lookup_app_r by lia.
      split; [lia|]. split; [lia|]. split; [|split; [|done]].
      * rewrite <- Hln. f_equal. lia.
      * rewrite <- Hrn. f_equal. lia.
Qed.

(** A chain of leaf ranges from [b] to [e] puts every position of [b, e)
    in the range of exactly one leaf node. *)
Lemma chain_exactly_one nodes : ∀ b e i,
  chain b (leaf_ranges nodes) e → b ≤ i < e →
  ∃ k, (∃ n, nodes !! k = Some n ∧ in_leaf i n)
       ∧ ∀ k' n', nodes !! k' = Some n' → in_leaf i n' → k' = k.
Proof.
  induction nodes as [|node nodes IH]; intros b e i Hchain Hi.
  - simpl in Hchain. lia.
  - destruct node as [first count bbox|lc rc bbox].
    + unfold leaf_ranges in Hchain. simpl in Hchain.
      destruct Hchain as [-> Hrest]. fold (leaf_ranges nodes) in Hrest.
      destruct (decide (i < b + count)) as [Hin|Hout].
      * exists 0.
        split; [exists (Leaf b count bbox); simpl; split; [done|lia]|].
        intros [|k'] n' Hk' Hn'; [done|]. simpl in Hk'. exfalso.
        destruct n' as [f c bb|]; [|done]. simpl in Hn'.
        destruct (chain_bounds _ _ _ Hrest) as [_ Hall].
        assert (Hmem : (f, c) ∈ leaf_ranges nodes).
        { apply list_elem_of_omap. exists (Leaf f c bb).
          split; [|done]. by eapply list_elem_of_lookup_2. }
        specialize (Hall _ Hmem). simpl in Hall. lia.
      * destruct (IH (b + count) e i Hrest) as (k & (n & Hk & Hn) & Huniq);
          [lia|].
        exists (S k). split; [by exists n|].
        intros [|k'] n' Hk' Hn'.
        -- simpl in Hk'. injection Hk' as <-. simpl in Hn'. lia.
        -- f_equal. by eapply Huniq.
    + unfold leaf_ranges in Hchain. simpl in Hchain.
      fold (leaf_ranges nodes) in Hchain.
      destruct (IH b e i Hchain Hi) as (k & (n & Hk & Hn) & Huniq).
      exists (S k). split; [by exists n|].
      intros [|k'] n' Hk' Hn'.
      * simpl in Hk'. injection Hk' as <-. done.
      * f_equal. by eapply Huniq.
Qed.

Lemma leaf_lookup_range nodes k item_index item_count bbox :
  nodes !! k = Some (Leaf item_index item_count bbox) →
  (item_index, item_count) ∈ leaf_ranges nodes.
Proof.
  intros Hk. apply list_elem_of_omap.
  exists (Leaf item_index item_count bbox).
  split; [by eapply list_elem_of_lookup_2|done].
Qed.

(** ** The builder *)

Section builder_properties.
Variable bboxes : list GAABB3.
Variable max_leaf_size : nat.
Variable traversal_cost : Q.
Variable intersection_cost : Q.

#[local] Abbreviation sah_partition :=
  (partition bboxes max_leaf_size traversal_cost intersection_cost).
#[local] Abbreviation recurse :=
  (subdivide_recurse bboxes max_leaf_size traversal_cost intersection_cost).
#[local] Abbreviation bounded_or_cheaper :=
  (leaf_size_bounded_or_cheaper bboxes max_leaf_size traversal_cost
     intersection_cost).

Lemma subdivide_recurse_unfold fuel ordering node_index b e bbox :
  recurse (S fuel) ordering node_index b e bbox =
    if bool_decide (e - b ≤ 1 ∨ e - b ≤ max_leaf_size)
    then Some (ordering, [Leaf b (e - b) bbox])
    else
      match sah_partition ordering b e bbox with
      | None => Some (ordering, [Leaf b (e - b) bbox])
      | Some (ordering1, pivot) =>
          '(ordering2, left_nodes) ←
            recurse fuel ordering1 (S node_index) b pivot
              (compute_bbox bboxes ordering1 b pivot);
          '(ordering3, right_nodes) ←
            recurse fuel ordering2 (S node_index + length left_nodes)
              pivot e (compute_bbox bboxes ordering1 pivot e);
          Some (ordering3,
                Interior (S node_index) (S node_index + length left_nodes)
                  bbox :: left_nodes ++ right_nodes)
      end.
Proof. reflexivity. Qed.

Lemma slice_app_prefix (x y : list nat) f e :
  e ≤ length x → slice (x ++ y) f e = slice x f e.
Proof.
  intros He. unfold slice.
  destruct (decide (f ≤ e)) as [Hfe|Hfe].
  - rewrite drop_app_le by lia. apply take_app_le. rewrite length_drop. lia.
  - replace (e - f) with 0 by lia. done.
Qed.

(** What the partitioner answers on a range depends on the ordering only
    through the items of the range. *)
Lemma leaf_bound_frame (x y y' : list nat) bound nodes :
  bound ≤ length x →
  (∀ k f c bb, nodes !! k = Some (Leaf f c bb) → f + c ≤ bound) →
  bounded_or_cheaper (x ++ y) nodes → bounded_or_cheaper (x ++ y') nodes.
Proof.
  intros Hbound Hranges Hnodes k f c bb Hk.
  destruct (Hnodes k f c bb Hk) as [?|[?|[Hbb Hcheap]]];
    [by left|by right; left|].
  right; right. specialize (Hranges k f c bb Hk).
  unfold compute_bbox, leaf_is_cheaper in *.
  by rewrite (slice_app_prefix x y') by lia;
    rewrite (slice_app_prefix x y) in Hbb, Hcheap by lia.
Qed.

Lemma bounded_or_cheaper_interior ordering lc rc bbox nodes nodes' :
  bounded_or_cheaper ordering nodes →
  bounded_or_cheaper ordering nodes' →
  bounded_or_cheaper ordering (Interior lc rc bbox :: nodes ++ nodes').
Proof.
  intros Hl Hr [|k] f c bb Hk; [done|].
  change ((nodes ++ nodes') !! k = Some (Leaf f c bb)) in Hk.
  apply lookup_app_Some in Hk as [Hk|[_ Hk]]; eauto.
Qed.

Lemma partition_None ordering b e bbox :
  sah_partition ordering b e bbox = None →
  e - b ≤ max_leaf_size
  ∨ leaf_is_cheaper bboxes traversal_cost intersection_cost ordering b e bbox
    = true.
Proof.
  unfold partition. case_bool_decide; [by left|].
  destruct (leaf_is_cheaper _ _ _ _ _ _ _); [by right|done].
Qed.

(** One frame of the builder on the range [mid] of the ordering
    [pre ++ mid ++ post]: with enough fuel it returns, the items outside
    the range stay in place, the items of the range are permuted, and the
    nodes of the subtree satisfy the structural invariants. *)
Lemma subdivide_recurse_spec fuel : ∀ pre mid post node_index b e bbox,
  b = length pre → e = b + length mid → length mid < fuel →
  bbox = bbox_of_items bboxes mid →
  ∃ mid' nodes,
    recurse fuel (pre ++ mid ++ post) node_index b e bbox
      = Some (pre ++ mid' ++ post, nodes)
    ∧ mid' ≡ₚ mid
    ∧ (∃ n, nodes !! 0 = Some n ∧ node_bbox n = bbox)
    ∧ chain b (leaf_ranges nodes) e
    ∧ (0 < length mid →
       Forall (λ range, 0 < range.2) (leaf_ranges nodes))
    ∧ children_ok node_index nodes
    ∧ bounded_or_cheaper (pre ++ mid' ++ post) nodes.
Proof.
  induction fuel as [|fuel IH];
    intros pre mid post node_index b e bbox Hb He Hfuel Hbbox; [lia|].
  rewrite subdivide_recurse_unfold.
  assert (Hcount : e - b = length mid) by lia. rewrite Hcount.
  assert (Hleaf :
    (length mid ≤ max_leaf_size ∨ (max_leaf_size < 1 ∧ length mid ≤ 1)
     ∨ (bbox = compute_bbox bboxes (pre ++ mid ++ post) b (b + length mid)
        ∧ leaf_is_cheaper bboxes traversal_cost intersection_cost
            (pre ++ mid ++ post) b (b + length mid) bbox = true)) →
    ∃ mid' nodes,
      Some (pre ++ mid ++ post, [Leaf b (length mid) bbox])
        = Some (pre ++ mid' ++ post, nodes)
      ∧ mid' ≡ₚ mid
      ∧ (∃ n, nodes !! 0 = Some n ∧ node_bbox n = bbox)
      ∧ chain b (leaf_ranges nodes) e
      ∧ (0 < length mid →
         Forall (λ range, 0 < range.2) (leaf_ranges nodes))
      ∧ children_ok node_index nodes
      ∧ bounded_or_cheaper (pre ++ mid' ++ post) nodes).
  { intros Hok. exists mid, [Leaf b (length mid) bbox].
    split; [done|]. split; [done|].
    split; [by exists (Leaf b (length mid) bbox)|].
    split; [simpl; lia|].
    split; [intros; by repeat constructor|].
    split; [by intros [|[|k]] ? ? ? ?|].
    intros [|[|k]] f c bb Hk; try done. by injection Hk as <- <- <-. }
  case_bool_decide as Hsmall.
  { apply Hleaf. destruct Hsmall; [|by left].
    destruct (decide (length mid ≤ max_leaf_size));
      [by left|right; left; lia]. }
  destruct (sah_partition (pre ++ mid ++ post) b e bbox)
    as [[ordering1 pivot]|] eqn:Hpart; cycle 1.
  { apply Hleaf. rewrite <- He.
    destruct (partition_None _ _ _ _ Hpart) as [Hle|Hcheap];
      [left; lia|right; right].
    split; [|done]. by rewrite (compute_bbox_middle bboxes pre mid post b e). }
  destruct (partition_split bboxes max_leaf_size traversal_cost
              intersection_cost
              pre mid post b e bbox ordering1 pivot Hb He ltac:(lia) Hpart)
    as (l & r & -> & Hperm & -> & Hl & Hr).
  assert (Hlen : length mid = length l + length r)
    by (by rewrite <- Hperm, length_app).
  rewrite <- (app_assoc l r post).
  assert (Hlb : compute_bbox bboxes (pre ++ l ++ r ++ post) b (b + length l)
                = bbox_of_items bboxes l)
    by (by apply compute_bbox_middle).
  assert (Hrb : compute_bbox bboxes (pre ++ l ++ r ++ post) (b + length l) e
                = bbox_of_items bboxes r).
  { rewrite (app_assoc pre l). apply compute_bbox_middle;
      rewrite ?length_app; lia. }
  rewrite Hlb, Hrb.
  destruct (IH pre l (r ++ post) (S node_index) b (b + length l)
              (bbox_of_items bboxes l))
    as (l' & L & -> & Hl' & (ln & HL0 & Hlnb) & HLchain & HLpos & HLch & HLok);
    [done|done|lia|done|].
  simpl.
  assert (Hll' : length l' = length l) by (by rewrite Hl').
  rewrite (app_assoc pre l' (r ++ post)).
  destruct (IH (pre ++ l') r post (S (node_index + length L))
              (b + length l) e (bbox_of_items bboxes r))
    as (r' & R & -> & Hr' & (rn & HR0 & Hrnb) & HRchain & HRpos & HRch & HRok);
    [rewrite length_app; lia|lia|lia|done|].
  simpl.
  exists (l' ++ r'), (Interior (S node_index) (S (node_index + length L)) bbox
                        :: L ++ R).
  split; [by rewrite <- !app_assoc|].
  split; [by rewrite Hl', Hr'|].
  split; [by eexists|].
  split; [rewrite leaf_ranges_interior; by eapply chain_app|].
  split.
  { intros _. rewrite leaf_ranges_interior. apply Forall_app.
    split; [apply HLpos|apply HRpos]; lia. }
  split.
  { apply (children_ok_interior node_index bbox L R ln rn); try done.
    rewrite Hlnb, Hrnb, Hbbox, <- (bbox_of_items_perm bboxes _ _ Hperm).
    apply bbox_of_items_app. }
  apply bounded_or_cheaper_interior.
  - rewrite <- (app_assoc l' r' post), (app_assoc pre l' (r' ++ post)).
    rewrite (app_assoc pre l' (r ++ post)) in HLok.
    apply (leaf_bound_frame (pre ++ l') (r ++ post) (r' ++ post)
             (b + length l) L); [rewrite length_app; lia| |done].
    intros k f c bb Hk. apply leaf_lookup_range in Hk.
    destruct (chain_bounds _ _ _ HLchain) as [_ Hall].
    specialize (Hall _ Hk). simpl in Hall. lia.
  - by rewrite <- (app_assoc l' r' post), (app_assoc pre l' (r' ++ post)).
Qed.
End builder_properties.

Section build_properties.
Variable bboxes : list GAABB3.
Variable max_leaf_size : nat.
Variable traversal_cost : Q.
Variable intersection_cost : Q.

(** The build over [size] items returns; the final item ordering is a
    permutation of the items and the node array satisfies the structural
    invariants. *)
Lemma build_spec size :
  ∃ ordering nodes,
    build bboxes max_leaf_size traversal_cost intersection_cost size
      = Some (ordering, nodes)
    ∧ ordering ≡ₚ seq 0 size
    ∧ (∃ n, nodes !! 0 = Some n
            ∧ node_bbox n = bbox_of_items bboxes (seq 0 size))
    ∧ chain 0 (leaf_ranges nodes) size
    ∧ (0 < size → Forall (λ range, 0 < range.2) (leaf_ranges nodes))
    ∧ children_ok 0 nodes
    ∧ leaf_size_bounded_or_cheaper bboxes max_leaf_size traversal_cost
        intersection_cost ordering nodes.
Proof.
  unfold build.
  assert (Hbbox : compute_bbox bboxes (seq 0 size) 0 size
                  = bbox_of_items bboxes (seq 0 size)).
  { rewrite <- (app_nil_r (seq 0 size)) at 1.
    apply (compute_bbox_middle bboxes [] (seq 0 size) []); simpl;
      by rewrite ?length_seq. }
  rewrite Hbbox.
  destruct (subdivide_recurse_spec bboxes max_leaf_size traversal_cost
              intersection_cost (S size) [] (seq 0 size) [] 0 0 size
              (bbox_of_items bboxes (seq 0 size)))
    as (mid' & nodes & Heq & Hperm & Hroot & Hchain & Hpos & Hch & Hok);
    rewrite ?length_seq; try done; try lia.
  rewrite !app_nil_r in Heq. rewrite app_nil_r in Hok.
  rewrite length_seq in Hpos.
  exists mid', nodes. split; [exact Heq|]. split; [done|].
  split; [done|]. split; [done|]. split; [done|]. split; [done|exact Hok].
Qed.
End build_properties.

(** ** Reordering *)

Lemma small_item_reorder_lookup {A} (items : list A) (order : list nat) :
  Forall (λ i, i < length items) order →
  ∀ p, small_item_reorder items order !! p = order !! p ≫= (items !!.).
Proof.
  unfold small_item_reorder.
  induction 1 as [|i order Hi _ IH]; intros p; [done|].
  apply lookup_lt_is_Some in Hi as [x Hx]. simpl. rewrite Hx. simpl.
  destruct p as [|p]; simpl; [done|]. apply IH.
Qed.

Lemma small_item_reorder_length {A} (items : list A) (order : list nat) :
  Forall (λ i, i < length items) order →
  length (small_item_reorder items order) = length order.
Proof.
  unfold small_item_reorder.
  induction 1 as [|i order Hi _ IH]; [done|].
  apply lookup_lt_is_Some in Hi as [x Hx]. simpl. rewrite Hx. simpl.
  f_equal. apply IH.
Qed.

Lemma ordering_in_range (order : list nat) size :
  order ≡ₚ seq 0 size → Forall (λ i, i < size) order.
Proof.
  intros Hperm. apply Forall_forall. intros i Hi.
  rewrite Hperm in Hi. apply elem_of_seq in Hi. lia.
Qed.

(** ** CurveTree::build_bvh and CurveTree::CurveTree *)

Section CurveTree_properties.
Context `{Ext : Externals}.

(** [build_bvh] returns: it stores the nodes the builder produced and,
    unless there are no curves, the curves and keys reordered by the final
    item ordering. *)
Lemma build_bvh_spec arguments params time statistics tree :
  ∃ curves keys order nodes,
    collect_curves arguments (m_curves3 tree, m_curve_keys tree)
      = (curves, keys)
    ∧ build_nodes (get_bbox <$> curves) (length curves) = Some (order, nodes)
    ∧ build_bvh arguments params time statistics tree
      = Some (match curves with
              | [] => mkCurveTree nodes curves keys
              | _ :: _ =>
                  mkCurveTree nodes (small_item_reorder curves order)
                    (small_item_reorder keys order)
              end).
Proof.
  unfold build_bvh.
  destruct (collect_curves arguments (m_curves3 tree, m_curve_keys tree))
    as [curves keys].
  destruct (build_spec (get_bbox <$> curves) CurveTreeDefaultMaxLeafSize
              CurveTreeDefaultInteriorNodeTraversalCost
              CurveTreeDefaultCurveIntersectionCost (length curves))
    as (order & nodes & Hbuild & _).
  exists curves, keys, order, nodes. unfold build_nodes. rewrite Hbuild.
  simpl. by destruct curves.
Qed.

(** C1.  For a non-empty set of [N] collected curves, [build_bvh] returns
    and the leaf ranges of the node array partition [0, N): every leaf
    range is a non-empty part of the interval, and every position of the
    interval lies in the range of exactly one leaf node. *)
Theorem build_bvh_leaves_partition (arguments : Arguments)
    (params : gmap string string) (time : Q) (statistics : Statistics)
    (tree : CurveTree) :
  0 < length
        (collect_curves arguments (m_curves3 tree, m_curve_keys tree)).1 →
  ∃ tree',
    build_bvh arguments params time statistics tree = Some tree'
    ∧ leaves_partition (m_nodes tree')
        (length
           (collect_curves arguments (m_curves3 tree, m_curve_keys tree)).1).
Proof.
  intros Hsize.
  destruct (build_bvh_spec arguments params time statistics tree)
    as (curves & keys & order & nodes & Hcollect & Hbuild & ->).
  rewrite Hcollect in Hsize |- *. simpl in Hsize |- *.
  eexists. split; [done|].
  destruct (build_spec (get_bbox <$> curves) CurveTreeDefaultMaxLeafSize
              CurveTreeDefaultInteriorNodeTraversalCost
              CurveTreeDefaultCurveIntersectionCost (length curves))
    as (order' & nodes' & Hbuild' & _ & _ & Hchain & Hpos & _).
  unfold build_nodes in Hbuild. rewrite Hbuild in Hbuild'.
  injection Hbuild' as <- <-.
  assert (Hnodes : m_nodes
    (match curves with
     | [] => mkCurveTree nodes curves keys
     | _ :: _ => mkCurveTree nodes (small_item_reorder curves order)
                   (small_item_reorder keys order)
     end) = nodes) by by destruct curves.
  rewrite Hnodes. split.
  - intros k f c bb Hk. apply leaf_lookup_range in Hk.
    destruct (chain_bounds _ _ _ Hchain) as [_ Hall].
    specialize (Hall _ Hk). simpl in Hall.
    specialize (Hpos Hsize). rewrite Forall_forall in Hpos.
    specialize (Hpos _ Hk). simpl in Hpos. lia.
  - intros i Hi. apply (chain_exactly_one nodes 0 (length curves)); [done|lia].
Qed.
End CurveTree_properties.

Lemma build_bvh_leaves_partition_witness :
  ∃ tree',
    @build_bvh demo_externals (demo_arguments ∅) ∅ (1 # 2) [] empty_tree
      = Some tree'
    ∧ leaves_partition (m_nodes tree') 8.
Proof.
  apply (@build_bvh_leaves_partition demo_externals (demo_arguments ∅) ∅
           (1 # 2) [] empty_tree).
  vm_compute. lia.
Defined.

Section CurveTree_build.
Context `{Ext : Externals}.

(** What [build_bvh] leaves in the members of the tree. *)
Lemma build_bvh_members arguments params time statistics tree :
  ∃ curves keys order tree',
    collect_curves arguments (m_curves3 tree, m_curve_keys tree)
      = (curves, keys)
    ∧ build_bvh arguments params time statistics tree = Some tree'
    ∧ build_nodes (get_bbox <$> curves) (length curves)
      = Some (order, m_nodes tree')
    ∧ order ≡ₚ seq 0 (length curves)
    ∧ children_ok 0 (m_nodes tree')
    ∧ leaf_size_bounded_or_cheaper (get_bbox <$> curves)
        CurveTreeDefaultMaxLeafSize
        CurveTreeDefaultInteriorNodeTraversalCost
        CurveTreeDefaultCurveIntersectionCost
        order (m_nodes tree')
    ∧ (length (m_curves3 tree') = length curves
       ∧ ∀ p, m_curves3 tree' !! p = order !! p ≫= (curves !!.))
    ∧ (length keys = length curves →
       length (m_curve_keys tree') = length curves
       ∧ ∀ p, m_curve_keys tree' !! p = order !! p ≫= (keys !!.)).
Proof.
  destruct (build_bvh_spec arguments params time statistics tree)
    as (curves & keys & order & nodes & Hcollect & Hbuild & ->).
  destruct (build_spec (get_bbox <$> curves) CurveTreeDefaultMaxLeafSize
              CurveTreeDefaultInteriorNodeTraversalCost
              CurveTreeDefaultCurveIntersectionCost (length curves))
    as (order' & nodes' & Hbuild' & Hperm & _ & _ & _ & Hch & Hok).
  unfold build_nodes in Hbuild. rewrite Hbuild in Hbuild'.
  injection Hbuild' as <- <-.
  exists curves, keys, order. eexists. split; [done|]. split; [done|].
  pose proof (ordering_in_range _ _ Hperm) as Hrange.
  destruct curves as [|curve curves]; simpl.
  - apply Permutation_nil_r in Hperm as ->.
    do 4 (split; [done|]). split; [done|].
    intros Hkeys. by apply nil_length_inv in Hkeys as ->.
  - assert (Hlen : length order = length (curve :: curves))
      by (by rewrite Hperm, length_seq).
    do 4 (split; [done|]). split; [split|intros Hkeys; split].
    + by rewrite small_item_reorder_length.
    + intros p. by apply small_item_reorder_lookup.
    + rewrite small_item_reorder_length; [done|by rewrite Hkeys].
    + intros p. apply small_item_reorder_lookup. by rewrite Hkeys.
Qed.

(** C2.  [build_bvh] returns, and the bounding box of every interior node
    of the node array is the union of the bounding boxes of its two
    children, the union of two boxes being the componentwise minimum of
    the min corners and the componentwise maximum of the max corners. *)
Theorem build_bvh_interior_bbox_union (arguments : Arguments)
    (params : gmap string string) (time : Q) (statistics : Statistics)
    (tree : CurveTree) :
  (∃ tree',
     build_bvh arguments params time statistics tree = Some tree'
     ∧ ∀ k left_child right_child bbox,
         m_nodes tree' !! k = Some (Interior left_child right_child bbox) →
         ∃ left_node right_node,
           m_nodes tree' !! left_child = Some left_node
           ∧ m_nodes tree' !! right_child = Some right_node
           ∧ bbox = aabb_insert (node_bbox left_node) (node_bbox right_node))
  ∧ ∀ amin amax bmin bmax,
      aabb_insert (Box amin amax) (Box bmin bmax)
      = Box (mkVector3 (Z.min (vx amin) (vx bmin)) (Z.min (vy amin) (vy bmin))
               (Z.min (vz amin) (vz bmin)))
            (mkVector3 (Z.max (vx amax) (vx bmax)) (Z.max (vy amax) (vy bmax))
               (Z.max (vz amax) (vz bmax))).
Proof.
  split; [|done].
  destruct (build_bvh_members arguments params time statistics tree)
    as (curves & keys & order & tree' & _ & Hbuild & _ & _ & Hch & _).
  exists tree'. split; [done|]. intros k lc rc bbox Hk.
  destruct (Hch k lc rc bbox Hk) as (ln & rn & _ & _ & Hl & Hr & Hbbox).
  rewrite Nat.sub_0_r in Hl, Hr. by exists ln, rn.
Qed.

(** C5.  [build_bvh], started on the empty tree, returns; the final item
    ordering is a permutation of the collected indices, and whenever it
    sends the original index [i] to the final position [p], position [p]
    of the curve vector holds the curve collected at index [i] and
    position [p] of the key vector holds the key collected at index [i]. *)
Theorem build_bvh_reorder_pairing (arguments : Arguments)
    (params : gmap string string) (time : Q) (statistics : Statistics) :
  ∃ tree order,
    build_bvh arguments params time statistics empty_tree = Some tree
    ∧ item_ordering arguments = Some order
    ∧ order ≡ₚ seq 0 (length (collect_curves arguments ([], [])).1)
    ∧ length (m_curves3 tree) = length (m_curve_keys tree)
    ∧ ∀ p i, order !! p = Some i →
        is_Some (m_curves3 tree !! p)
        ∧ m_curves3 tree !! p = (collect_curves arguments ([], [])).1 !! i
        ∧ m_curve_keys tree !! p = (collect_curves arguments ([], [])).2 !! i.
Proof.
  destruct (build_bvh_members arguments params time statistics empty_tree)
    as (curves & keys & order & tree & Hcollect & Hbuild & Hnodes & Hperm
        & _ & _ & [Hclen Hcurves] & Hkeys).
  simpl in Hcollect.
  assert (Hlen : length keys = length curves).
  { pose proof (collect_curves_emitted arguments ([], [])) as Hem.
    rewrite Hcollect in Hem. simpl in Hem. injection Hem as -> ->.
    by rewrite !length_fmap. }
  destruct (Hkeys Hlen) as [Hklen Hkeys'].
  exists tree, order. unfold item_ordering. rewrite Hcollect. simpl.
  rewrite Hnodes. simpl.
  split; [done|]. split; [done|]. split; [done|].
  split; [by rewrite Hclen, Hklen|].
  intros p i Hp. rewrite Hcurves, Hkeys', Hp. simpl.
  split; [|done]. apply lookup_lt_is_Some.
  pose proof (ordering_in_range _ _ Hperm) as Hrange.
  rewrite Forall_forall in Hrange. apply Hrange.
  by eapply list_elem_of_lookup_2.
Qed.
End CurveTree_build.

Section CurveTree_claims.
Context `{Ext : Externals}.


(** C4.  Two runs of [build_bvh] whose collected curves have the same
    sequence of bounding boxes both return, with the same node array (the
    node layout and, through its child indices and leaf ranges, the
    splits) and the same final item ordering, whatever else differs
    between the two sets of arguments.  Every split is decided by the
    bounding boxes and the items of the range alone: the partitioners of
    the two runs answer alike on every range that holds the same items,
    however each run has arranged them.  The tie-breaks are fixed: a split
    leaves its range sorted along the dominant axis by box center, equal
    centers by lowest item index; the pivot is the lowest of the cheapest
    split positions; the dominant axis is the lowest axis of largest
    extent. *)
Theorem build_bvh_deterministic (arguments1 arguments2 : Arguments)
    (params1 params2 : gmap string string) (time1 time2 : Q)
    (statistics1 statistics2 : Statistics) :
  get_bbox <$> (collect_curves arguments1 ([], [])).1
    = get_bbox <$> (collect_curves arguments2 ([], [])).1 →
  (∃ tree1 tree2 order,
     build_bvh arguments1 params1 time1 statistics1 empty_tree = Some tree1
     ∧ build_bvh arguments2 params2 time2 statistics2 empty_tree = Some tree2
     ∧ m_nodes tree1 = m_nodes tree2
     ∧ item_ordering arguments1 = Some order
     ∧ item_ordering arguments2 = Some order)
  ∧ (∀ pre mid1 mid2 post bbox,
       mid1 ≡ₚ mid2 →
       partition (get_bbox <$> (collect_curves arguments1 ([], [])).1)
         CurveTreeDefaultMaxLeafSize
         CurveTreeDefaultInteriorNodeTraversalCost
         CurveTreeDefaultCurveIntersectionCost
         (pre ++ mid1 ++ post) (length pre) (length pre + length mid1) bbox
       = partition (get_bbox <$> (collect_curves arguments2 ([], [])).1)
           CurveTreeDefaultMaxLeafSize
           CurveTreeDefaultInteriorNodeTraversalCost
           CurveTreeDefaultCurveIntersectionCost
           (pre ++ mid2 ++ post) (length pre) (length pre + length mid2) bbox)
  ∧ (∀ pre mid post bbox ordering pivot,
       2 ≤ length mid →
       partition (get_bbox <$> (collect_curves arguments1 ([], [])).1)
         CurveTreeDefaultMaxLeafSize
         CurveTreeDefaultInteriorNodeTraversalCost
         CurveTreeDefaultCurveIntersectionCost
         (pre ++ mid ++ post) (length pre) (length pre + length mid) bbox
       = Some (ordering, pivot) →
       ∃ sorted,
         ordering = pre ++ sorted ++ post ∧ sorted ≡ₚ mid
         ∧ StronglySorted
             (item_le (get_bbox <$> (collect_curves arguments1 ([], [])).1)
                (dominant_axis bbox)) sorted
         ∧ length pre < pivot < length pre + length mid
         ∧ ∀ k, 0 < k < length mid →
             (split_cost (get_bbox <$> (collect_curves arguments1 ([], [])).1)
                CurveTreeDefaultInteriorNodeTraversalCost
                CurveTreeDefaultCurveIntersectionCost
                bbox sorted (pivot - length pre)
              <= split_cost
                   (get_bbox <$> (collect_curves arguments1 ([], [])).1)
                   CurveTreeDefaultInteriorNodeTraversalCost
                   CurveTreeDefaultCurveIntersectionCost
                   bbox sorted k)%Q
             ∧ (k < pivot - length pre →
                ¬ (split_cost
                     (get_bbox <$> (collect_curves arguments1 ([], [])).1)
                     CurveTreeDefaultInteriorNodeTraversalCost
                     CurveTreeDefaultCurveIntersectionCost
                     bbox sorted k
                   <= split_cost
                        (get_bbox <$> (collect_curves arguments1 ([], [])).1)
                        CurveTreeDefaultInteriorNodeTraversalCost
                        CurveTreeDefaultCurveIntersectionCost
                        bbox sorted (pivot - length pre))%Q))
  ∧ (∀ bbox d,
       d < 3 →
       dominant_axis bbox < 3
       ∧ (component d (extent bbox)
          ≤ component (dominant_axis bbox) (extent bbox))%Z
       ∧ (d < dominant_axis bbox →
          (component d (extent bbox)
           < component (dominant_axis bbox) (extent bbox))%Z)).
Proof.
  intros Hbboxes. split; [|split; [|split]].
  - destruct (build_bvh_members arguments1 params1 time1 statistics1
                empty_tree)
      as (curves1 & keys1 & order1 & tree1 & Hc1 & Hbuild1 & Hnodes1 & _).
    destruct (build_bvh_members arguments2 params2 time2 statistics2
                empty_tree)
      as (curves2 & keys2 & order2 & tree2 & Hc2 & Hbuild2 & Hnodes2 & _).
    simpl in Hc1, Hc2. unfold item_ordering.
    rewrite Hc1, Hc2 in Hbboxes |- *. simpl in Hbboxes |- *.
    assert (Hlen : length curves1 = length curves2).
    { by rewrite <- (length_fmap get_bbox curves1), Hbboxes, length_fmap. }
    rewrite Hbboxes, Hlen, Hnodes2 in Hnodes1. injection Hnodes1 as -> Hnodes.
    exists tree1, tree2, order1.
    by rewrite Hbboxes, Hlen, Hnodes2.
  - intros pre mid1 mid2 post bbox Hperm. rewrite Hbboxes.
    by apply partition_arrangement.
  - intros pre mid post bbox ordering pivot. apply partition_tie_breaks.
  - apply dominant_axis_lowest.
Qed.

Lemma selected_algorithm_choice arguments :
  get_optional_choice (acceleration_structure (m_assembly arguments))
    "algorithm" "bvh" ["bvh"; "sbvh"]
  = if bool_decide (selected_algorithm arguments ∈ ["bvh"; "sbvh"])
    then inr (selected_algorithm arguments)
    else inl (ExceptionInvalidChoice "algorithm"
                (selected_algorithm arguments)).
Proof.
  unfold get_optional_choice, selected_algorithm.
  by destruct (acceleration_structure (m_assembly arguments) !! "algorithm").
Qed.

(** C3.  When the selected build algorithm is anything but "bvh", the
    constructor throws and the node, curve and key vectors of the tree
    are still empty; the exception is a configuration error: the
    validation failure for a value outside the closed choice, and
    [ExceptionNotImplemented] for "sbvh".  No tree is built. *)
Theorem unsupported_algorithm_throws (arguments : Arguments) :
  selected_algorithm arguments ≠ "bvh" →
  ∃ e,
    CurveTree_new arguments = (Thrown e, mkCurveTree [] [] [])
    ∧ error_kind e = ConfigurationError
    ∧ e = if bool_decide (selected_algorithm arguments = "sbvh")
          then ExceptionNotImplemented
          else ExceptionInvalidChoice "algorithm"
                 (selected_algorithm arguments).
Proof.
  intros Hne. unfold CurveTree_new.
  rewrite selected_algorithm_choice.
  case_bool_decide as Hallowed.
  - rewrite (bool_decide_false _ Hne).
    exists ExceptionNotImplemented. split; [done|]. split; [done|].
    rewrite bool_decide_true; [done|].
    apply elem_of_cons in Hallowed as [?|Hallowed]; [done|].
    by apply list_elem_of_singleton in Hallowed.
  - eexists. split; [done|]. split; [done|].
    rewrite bool_decide_false; [done|].
    intros Heq. apply Hallowed. rewrite Heq.
    apply elem_of_cons. right. by apply elem_of_cons; left.
Qed.

(** C8.  When no curve is collected and the selected algorithm is "bvh",
    the constructor returns and the node array is a single empty leaf
    (the root); the curve and key vectors are empty. *)
Theorem empty_input_single_leaf (arguments : Arguments) :
  (collect_curves arguments ([], [])).1 = [] →
  selected_algorithm arguments = "bvh" →
  CurveTree_new arguments
  = (Returned ["nodes alignment"; "total time"],
     mkCurveTree [Leaf 0 0 InvalidBox] [] []).
Proof.
  intros Hempty Hbvh. unfold CurveTree_new.
  rewrite selected_algorithm_choice, Hbvh. simpl.
  unfold build_bvh. simpl.
  pose proof (collect_curves_emitted arguments ([], [])) as Hem.
  destruct (collect_curves arguments ([], [])) as [curves keys].
  simpl in Hempty, Hem. subst curves.
  injection Hem as Hcurves Hkeys.
  symmetry in Hcurves. apply fmap_nil_inv in Hcurves.
  rewrite Hcurves in Hkeys. simpl in Hkeys. subst keys.
  unfold build_nodes, build. rewrite subdivide_recurse_unfold.
  rewrite bool_decide_true by (left; simpl; lia). done.
Qed.

(** C10.  The "time" parameter has no effect on the constructed tree:
    setting it to any value changes neither the outcome of the
    constructor nor the node, curve and key vectors, and [build_bvh]
    returns the same tree for any two values of its [time] argument. *)
Theorem time_parameter_has_no_effect (arguments : Arguments)
    (value1 value2 : string) :
  CurveTree_new (with_time value1 arguments) = CurveTree_new arguments
  ∧ CurveTree_new (with_time value1 arguments)
    = CurveTree_new (with_time value2 arguments)
  ∧ ∀ params time1 time2 statistics tree,
      build_bvh arguments params time1 statistics tree
      = build_bvh arguments params time2 statistics tree.
Proof.
  assert (Hsame : ∀ value,
    CurveTree_new (with_time value arguments) = CurveTree_new arguments).
  { intros value. unfold CurveTree_new, with_time, get_optional_choice.
    simpl. rewrite lookup_insert_ne by done.
    destruct (acceleration_structure (m_assembly arguments) !! "algorithm")
      as [algorithm|]; [|done].
    destruct (bool_decide (algorithm ∈ ["bvh"; "sbvh"])); [|done].
    destruct (bool_decide (algorithm = "bvh")); done. }
  split; [apply Hsame|]. split; [by rewrite !Hsame|done].
Qed.
End CurveTree_claims.

(** ** The properties on the small scene *)

(** The two scenes are split all the way down; curves 1 and 5, 3 and 7,
    2 and 6, 0 and 4 have equal centers along the first split axis and
    stay in index order. *)
Lemma build_bvh_deterministic_witness :
  ∃ tree1 tree2 order,
    (@build_bvh demo_externals (demo_arguments ∅) ∅ (1 # 2) [] empty_tree
       = Some tree1
     ∧ @build_bvh demo_externals shifted_arguments {["time" := "0.25"]}
         (1 # 4) ["previous"] empty_tree = Some tree2
     ∧ m_nodes tree1 = m_nodes tree2
     ∧ @item_ordering demo_externals (demo_arguments ∅) = Some order
     ∧ @item_ordering demo_externals shifted_arguments = Some order)
    ∧ order = [1; 5; 3; 7; 2; 6; 0; 4]
    ∧ length (m_nodes tree1) = 15.
Proof.
  assert (Hbboxes :
    @get_bbox demo_externals
      <$> (@collect_curves demo_externals (demo_arguments ∅) ([], [])).1
    = @get_bbox demo_externals
        <$> (@collect_curves demo_externals shifted_arguments ([], [])).1)
    by (vm_compute; reflexivity).
  destruct (@build_bvh_deterministic demo_externals
              (demo_arguments ∅) shifted_arguments
              ∅ {["time" := "0.25"]} (1 # 2) (1 # 4) [] ["previous"] Hbboxes)
    as [(tree1 & tree2 & order & Hbuild1 & Hbuild2 & Hnodes & Horder1
         & Horder2) _].
  exists tree1, tree2, order.
  split;
    [exact (conj Hbuild1 (conj Hbuild2 (conj Hnodes (conj Horder1 Horder2))))
    |].
  vm_compute in Horder1. injection Horder1 as <-.
  clear Hbuild2 Hnodes Horder2.
  vm_compute in Hbuild1. injection Hbuild1 as <-.
  split; reflexivity.
Defined.

Lemma unsupported_algorithm_throws_witness :
  ∃ e,
    @CurveTree_new demo_externals (demo_arguments {["algorithm" := "sbvh"]})
      = (Thrown e, mkCurveTree [] [] [])
    ∧ error_kind e = ConfigurationError
    ∧ e = ExceptionNotImplemented.
Proof.
  refine (@unsupported_algorithm_throws demo_externals
            (demo_arguments {["algorithm" := "sbvh"]}) _).
  vm_compute. discriminate.
Defined.

Lemma empty_input_single_leaf_witness :
  @CurveTree_new demo_externals empty_arguments
  = (Returned ["nodes alignment"; "total time"],
     mkCurveTree [Leaf 0 0 InvalidBox] [] []).
Proof.
  apply (@empty_input_single_leaf demo_externals empty_arguments).
  - vm_compute. reflexivity.
  - vm_compute. reflexivity.
Defined.


(** * Further properties *)

(** ** What the collected keys say *)

Section collect_keys.
Context `{Ext : Externals}.

Lemma emitted_lookup arguments p curve key :
  emitted arguments !! p = Some (curve, key) →
  ∃ object_instance source,
    object_instances (m_assembly arguments) !! object_instance_index key
      = Some object_instance
    ∧ get_model (get_object object_instance) = CurveObjectFactory_get_model
    ∧ get_curves (get_object object_instance) !! curve_index key = Some source
    ∧ curve = transform_curve source (get_local_to_parent object_instance)
    ∧ material_index key = 0.
Proof.
  intros Hp. apply list_elem_of_lookup_2 in Hp. unfold emitted in Hp.
  apply list_elem_of_join in Hp as (l & Hentry & Hl).
  apply elem_of_lookup_imap in Hl as (i & inst & -> & Hi).
  unfold emitted_by in Hentry.
  case_bool_decide as Hmodel; [|by apply elem_of_nil in Hentry].
  apply elem_of_lookup_imap in Hentry as (j & source & [= -> ->] & Hj).
  exists inst, source. done.
Qed.

(** X1.  Every collected key leads back to its curve: the key stored at a
    position names an object instance of the assembly whose object carries
    the curve model tag and a curve index inside that object, and the curve
    stored at the same position is that curve under the transform of that
    instance. *)
Theorem collect_curves_key_provenance (arguments : Arguments) (p : nat)
    (curve : BezierCurve3d) (key : CurveKey) :
  (collect_curves arguments ([], [])).1 !! p = Some curve →
  (collect_curves arguments ([], [])).2 !! p = Some key →
  ∃ object_instance source,
    object_instances (m_assembly arguments) !! object_instance_index key
      = Some object_instance
    ∧ get_model (get_object object_instance) = CurveObjectFactory_get_model
    ∧ get_curves (get_object object_instance) !! curve_index key = Some source
    ∧ curve = transform_curve source (get_local_to_parent object_instance).
Proof.
  rewrite collect_curves_emitted. simpl. rewrite !list_lookup_fmap.
  destruct (emitted arguments !! p) as [[curve' key']|] eqn:Hp; [|done].
  simpl. intros [= ->] [= ->].
  destruct (emitted_lookup _ _ _ _ Hp) as (inst & source & ? & ? & ? & ? & _).
  by exists inst, source.
Qed.

Lemma emitted_by_keys i object_instance :
  (emitted_by i object_instance).*2
  = (λ j, mkCurveKey i j 0) <$> seq 0 (collected_count object_instance).
Proof.
  unfold emitted_by, collected_count. case_bool_decide; [|done].
  rewrite fmap_imap.
  apply (imap_seq_0 (get_curves (get_object object_instance))
           (λ j, mkCurveKey i j 0)).
Qed.

Lemma keys_from_sorted rest : ∀ i,
  StronglySorted key_lt (mjoin (imap (λ k, emitted_by (i + k)) rest)).*2
  ∧ Forall (λ key, i ≤ object_instance_index key)
      (mjoin (imap (λ k, emitted_by (i + k)) rest)).*2.
Proof.
  induction rest as [|inst rest IH]; intros i; simpl.
  - split; constructor.
  - assert (Hshift :
      imap ((λ k, emitted_by (i + k)) ∘ S) rest
      = imap (λ k, emitted_by (S i + k)) rest).
    { apply imap_ext. intros k x _. simpl. f_equal. lia. }
    rewrite Hshift, Nat.add_0_r, fmap_app, emitted_by_keys.
    destruct (IH (S i)) as [Hsorted Hbound].
    set (n := collected_count inst). clearbody n.
    split.
    + apply StronglySorted_app_2; [| |done].
      * intros a b Ha Hb. apply list_elem_of_fmap in Ha as (j & -> & _).
        rewrite Forall_forall in Hbound. specialize (Hbound _ Hb).
        left. simpl. lia.
      * assert (Hrun : ∀ count start,
          StronglySorted key_lt
            ((λ j, mkCurveKey i j 0) <$> seq start count)); [|apply Hrun].
        induction count as [|count IHn]; intros start; simpl; [constructor|].
        constructor; [apply IHn|].
        apply Forall_forall. intros key Hkey.
        apply list_elem_of_fmap in Hkey as (j & -> & Hj).
        apply elem_of_seq in Hj. right. simpl. lia.
    + apply Forall_app. split.
      * apply Forall_forall. intros key Hkey.
        apply list_elem_of_fmap in Hkey as (j & -> & _). simpl. lia.
      * eapply Forall_impl; [exact Hbound|]. intros key Hkey. simpl in *. lia.
Qed.

Lemma key_lt_irrefl key : ¬ key_lt key key.
Proof. unfold key_lt. lia. Qed.

(** X2.  The keys collected from scratch are strictly increasing, by
    object instance index and then by curve index; so no two collected
    curves share a key. *)
Theorem collect_curves_keys_increasing (arguments : Arguments) :
  StronglySorted key_lt (collect_curves arguments ([], [])).2
  ∧ NoDup (collect_curves arguments ([], [])).2.
Proof.
  rewrite collect_curves_emitted. simpl.
  assert (Hsorted : StronglySorted key_lt (emitted arguments).*2).
  { apply (keys_from_sorted (object_instances (m_assembly arguments)) 0). }
  split; [done|].
  induction Hsorted as [|key keys _ IH Hall]; constructor; [|done].
  intros Hin. rewrite Forall_forall in Hall.
  by apply (key_lt_irrefl key), Hall.
Qed.

(** X3.  The number of curves (and of keys) collected from scratch is the
    sum, over the object instances, of the curve count of those whose
    object carries the curve model tag. *)
Theorem collect_curves_count (arguments : Arguments) :
  length (collect_curves arguments ([], [])).1
  = sum_list_with collected_count (object_instances (m_assembly arguments))
  ∧ length (collect_curves arguments ([], [])).2
    = sum_list_with collected_count (object_instances (m_assembly arguments)).
Proof.
  rewrite collect_curves_emitted. simpl. rewrite !length_fmap.
  assert (Hlen : ∀ rest i,
    length (mjoin (imap (λ k, emitted_by (i + k)) rest))
    = sum_list_with collected_count rest).
  { induction rest as [|inst rest IH]; intros i; simpl; [done|].
    rewrite length_app.
    assert (Hshift :
      imap ((λ k, emitted_by (i + k)) ∘ S) rest
      = imap (λ k, emitted_by (S i + k)) rest).
    { apply imap_ext. intros k x _. simpl. f_equal. lia. }
    rewrite Hshift, IH. f_equal.
    rewrite <- (length_fmap snd), emitted_by_keys, length_fmap.
    apply length_seq. }
  split; apply (Hlen _ 0).
Qed.

(** X4.  An assembly none of whose object instances refers to an object
    with the curve model tag leaves both output vectors as they were. *)
Theorem collect_curves_no_curve_object (arguments : Arguments)
    (out : CurveVectors) :
  Forall (λ object_instance,
            get_model (get_object object_instance)
            ≠ CurveObjectFactory_get_model)
    (object_instances (m_assembly arguments)) →
  collect_curves arguments out = out.
Proof.
  unfold collect_curves. intros Hall. generalize 0 as start.
  induction Hall as [|inst rest Hmodel _ IH]; intros start; simpl; [done|].
  rewrite bool_decide_false by done. apply IH.
Qed.

(** X5.  Collecting from a sequence of object instances is collecting from
    its first part and then, with the instance index carried on, from the
    rest. *)
Theorem collect_from_app (i : nat) (first rest : list ObjectInstance)
    (out : CurveVectors) :
  collect_from i (first ++ rest) out
  = collect_from (i + length first) rest (collect_from i first out).
Proof.
  revert i out. induction first as [|inst first IH]; intros i out; simpl.
  - by rewrite Nat.add_0_r.
  - replace (i + S (length first)) with (S i + length first) by lia.
    destruct (bool_decide _); apply IH.
Qed.
End collect_keys.

Lemma collect_curves_key_provenance_witness :
  ∃ object_instance source,
    object_instances (m_assembly (@demo_arguments ∅)) !! 2
      = Some object_instance
    ∧ @get_model demo_externals (get_object object_instance) = "curve_object"
    ∧ get_curves (get_object object_instance) !! 3 = Some source
    ∧ (unit_box 10 5 0, 3)
      = @transform_curve demo_externals source
          (get_local_to_parent object_instance).
Proof.
  refine (@collect_curves_key_provenance demo_externals (demo_arguments ∅) 7
            (unit_box 10 5 0, 3) (mkCurveKey 2 3 0) _ _);
    vm_compute; reflexivity.
Defined.

Lemma collect_curves_no_curve_object_witness :
  @collect_curves demo_externals empty_arguments ([], []) = ([], []).
Proof.
  apply (@collect_curves_no_curve_object demo_externals empty_arguments).
  repeat constructor. vm_compute. discriminate.
Defined.

(** ** The shader as_maya_tripleShadingSwitch *)

Section tripleShadingSwitch_properties.
Context {color : Type}.

Lemma switch_from_no_match (in_inTriple : list color) shape rest :
  ∀ i out_output,
    shape ∉ rest →
    switch_from color in_inTriple shape i rest out_output = Some out_output.
Proof.
  induction rest as [|name rest IH]; intros i out Hnot; simpl; [done|].
  apply not_elem_of_cons in Hnot as [Hne Hnot].
  rewrite bool_decide_false by done. by apply IH.
Qed.

Lemma switch_from_last_match (in_inTriple : list color) shape rest :
  ∀ start out_output i triple,
    start + length rest ≤ length in_inTriple →
    rest !! i = Some shape →
    (∀ j, i < j → rest !! j ≠ Some shape) →
    in_inTriple !! (start + i) = Some triple →
    switch_from color in_inTriple shape start rest out_output = Some triple.
Proof.
  induction rest as [|name rest IH];
    intros start out i triple Hlen Hi Hlast Htriple; [done|].
  simpl in Hlen. destruct i as [|i]; simpl.
  - injection Hi as ->. rewrite bool_decide_true by done.
    rewrite Nat.add_0_r in Htriple. rewrite Htriple. simpl.
    apply switch_from_no_match. intros Hin.
    apply list_elem_of_lookup in Hin as [j Hj].
    apply (Hlast (S j)); [lia|done].
  - assert (Hlast' : ∀ j, i < j → rest !! j ≠ Some shape).
    { intros j Hj. apply (Hlast (S j)). lia. }
    assert (Htriple' : in_inTriple !! (S start + i) = Some triple).
    { rewrite <- Htriple. f_equal. lia. }
    case_bool_decide.
    + destruct (lookup_lt_is_Some_2 in_inTriple start) as [t Ht]; [lia|].
      rewrite Ht. simpl. apply (IH (S start) t i); [lia|done..].
    + apply (IH (S start) out i); [lia|done..].
Qed.

Lemma switch_from_source (in_inTriple : list color) shape rest :
  ∀ i out_output result,
    switch_from color in_inTriple shape i rest out_output = Some result →
    result = out_output ∨ result ∈ in_inTriple.
Proof.
  induction rest as [|name rest IH]; intros i out result; simpl.
  - intros [= ->]. by left.
  - case_bool_decide; [|apply IH].
    destruct (in_inTriple !! i) as [triple|] eqn:Htriple; [|done]. simpl.
    intros Hrun. destruct (IH _ _ _ Hrun) as [->|?]; [|by right].
    right. by eapply list_elem_of_lookup_2.
Qed.

(** X6.  When the name of the shaded object is not among the shape names,
    the output is the default colour, whatever the number of input
    colours. *)
Theorem tripleShadingSwitch_no_match (in_inTriple : list color)
    (in_inShape : list string) (in_default : color) (shape : string) :
  shape ∉ in_inShape →
  as_maya_tripleShadingSwitch color in_inTriple in_inShape in_default
    (Some shape) = Some in_default.
Proof. intros Hnot. by apply switch_from_no_match. Qed.

(** X7.  With at least as many input colours as shape names, the output is
    the colour at the last index whose shape name is the name of the shaded
    object: a later match replaces an earlier one. *)
Theorem tripleShadingSwitch_last_match (in_inTriple : list color)
    (in_inShape : list string) (in_default : color) (shape : string)
    (i : nat) (triple : color) :
  length in_inShape ≤ length in_inTriple →
  in_inShape !! i = Some shape →
  (∀ j, i < j → in_inShape !! j ≠ Some shape) →
  in_inTriple !! i = Some triple →
  as_maya_tripleShadingSwitch color in_inTriple in_inShape in_default
    (Some shape) = Some triple.
Proof.
  intros Hlen Hi Hlast Htriple.
  by apply (switch_from_last_match in_inTriple shape in_inShape 0 in_default i).
Qed.

(** X8.  The output is never a new colour: it is the default colour or one
    of the input colours. *)
Theorem tripleShadingSwitch_source (in_inTriple : list color)
    (in_inShape : list string) (in_default : color)
    (object_name : option string) (result : color) :
  as_maya_tripleShadingSwitch color in_inTriple in_inShape in_default
    object_name = Some result →
  result = in_default ∨ result ∈ in_inTriple.
Proof.
  unfold as_maya_tripleShadingSwitch.
  destruct object_name as [shape|]; [apply switch_from_source|].
  intros [= ->]. by left.
Qed.
End tripleShadingSwitch_properties.

Lemma tripleShadingSwitch_no_match_witness :
  as_maya_tripleShadingSwitch nat [] ["sphere"; "cube"] 9 (Some "cone")
  = Some 9.
Proof.
  apply (@tripleShadingSwitch_no_match nat [] ["sphere"; "cube"] 9 "cone").
  intros Hin. repeat (apply elem_of_cons in Hin as [Hin|Hin]; [done|]).
  by apply elem_of_nil in Hin.
Defined.

Lemma tripleShadingSwitch_last_match_witness :
  as_maya_tripleShadingSwitch nat [1; 2; 3; 4] ["cube"; "sphere"; "cube"] 9
    (Some "cube") = Some 3.
Proof.
  apply (@tripleShadingSwitch_last_match nat [1; 2; 3; 4]
           ["cube"; "sphere"; "cube"] 9 "cube" 2 3).
  - simpl. lia.
  - reflexivity.
  - intros [|[|[|j]]] Hj; try lia; done.
  - reflexivity.
Defined.

Lemma tripleShadingSwitch_source_witness :
  2 = 9 ∨ 2 ∈ [1; 2].
Proof.
  apply (@tripleShadingSwitch_source nat [1; 2] ["cube"; "sphere"] 9
           (Some "sphere") 2).
  reflexivity.
Defined.

(** ** makefluffy *)

Module makefluffy_properties.
Import makefluffy.

Section algorithm_properties.
Context `{Num : Numerics}.

Lemma pieces_length curve split_count :
  length (pieces curve split_count) = 2 ^ split_count.
Proof.
  revert curve. induction split_count as [|n IH]; intros curve; simpl; [done|].
  rewrite length_app, !IH. lia.
Qed.

Lemma split_and_store_pieces object curve split_count :
  split_and_store object curve split_count
  = object ++ pieces curve split_count.
Proof.
  revert object curve.
  induction split_count as [|n IH]; intros object curve; simpl; [done|].
  destruct (split curve) as [child1 child2]. simpl.
  by rewrite !IH, app_assoc.
Qed.

(** X9.  [split_and_store] keeps the curves already stored and appends
    after them the pieces of the curve, from the first to the last:
    [2 ^ split_count] curves, the curve itself when [split_count] is 0. *)
Theorem split_and_store_appends (object : list BezierCurve3d)
    (curve : BezierCurve3d) (split_count : nat) :
  split_and_store object curve split_count
  = object ++ pieces curve split_count
  ∧ length (split_and_store object curve split_count)
    = length object + 2 ^ split_count
  ∧ split_and_store object curve 0 = object ++ [curve].
Proof.
  split; [apply split_and_store_pieces|]. split; [|done].
  by rewrite split_and_store_pieces, length_app, pieces_length.
Qed.

(** X10.  Whatever quantity of a curve its two halves share out between
    them (a length, a parameter range), [split_and_store] stores pieces
    that add up to the quantity of the curve. *)
Theorem split_and_store_additive (measure : BezierCurve3d → nat)
    (object : list BezierCurve3d) (curve : BezierCurve3d)
    (split_count : nat) :
  (∀ c, measure c = measure (split c).1 + measure (split c).2) →
  sum_list_with measure (split_and_store object curve split_count)
  = sum_list_with measure object + measure curve.
Proof.
  intros Hsplit. rewrite split_and_store_pieces, sum_list_with_app. f_equal.
  revert curve. induction split_count as [|n IH]; intros curve; simpl; [lia|].
  rewrite sum_list_with_app, !IH. symmetry. apply Hsplit.
Qed.

Lemma extract_from_cons object triangle rest support_triangles cdf :
  ∃ st,
    st = support_triangle_of object triangle
    ∧ extract_from object (triangle :: rest) support_triangles cdf
      = if degenerate object triangle
        then extract_from object rest support_triangles cdf
        else if is_normalized (m_normal st)
        then extract_from object rest (support_triangles ++ [st])
               (cdf ++ [(length (support_triangles ++ [st]) - 1, m_area st)])
        else None.
Proof. eexists. split; reflexivity. Qed.

(** The loop stores one support triangle per triangle that is not
    degenerate, unless the normal of one of them fails the assertion. *)
Lemma extract_from_spec object rest : ∀ support_triangles cdf,
  ∃ added,
    added
    = support_triangle_of object
        <$> filter (λ triangle, degenerate object triangle = false) rest
    ∧ extract_from object rest support_triangles cdf
      = if forallb (λ st, is_normalized (m_normal st)) added
        then Some (support_triangles ++ added,
                   cdf ++ imap (λ k st,
                                  (length support_triangles + k, m_area st))
                            added)
        else None.
Proof.
  induction rest as [|triangle rest IH]; intros support cdf.
  - exists []. simpl. by rewrite !app_nil_r.
  - destruct (extract_from_cons object triangle rest support cdf)
      as (t & Ht & ->).
    rewrite filter_cons. destruct (degenerate object triangle) eqn:Hdeg.
    + destruct (IH support cdf) as (added & Hadded & ->). exists added.
      split; [|done]. by rewrite decide_False.
    + destruct (IH (support ++ [t])
                  (cdf ++ [(length (support ++ [t]) - 1, m_area t)]))
        as (added & Hadded & Heq).
      exists (t :: added).
      rewrite decide_True by done. split; [by rewrite Hadded, Ht|].
      simpl. destruct (is_normalized (m_normal t)); [|done]. simpl.
      rewrite Heq. destruct (forallb _ added); [|done].
      rewrite <- !app_assoc. simpl. rewrite length_app. simpl.
      do 3 f_equal. f_equal; [f_equal; lia|].
      apply imap_ext. intros k st _. simpl. f_equal. lia.
Qed.

Lemma extract_support_triangles_unfold object support_triangles cdf :
  extract_support_triangles object support_triangles cdf
  = '(support_triangles, cdf) ←
      extract_from object (triangles object) support_triangles cdf;
    if cdf_valid cdf then Some (support_triangles, cdf_prepare cdf) else None.
Proof. reflexivity. Qed.

(** X11.  [extract_support_triangles] keeps what the two vectors held and
    appends to both in step: the item inserted into the CDF for a support
    triangle is the position of that triangle in [support_triangles], and
    its weight is the area of that triangle.  What is appended are the
    support triangles of the triangles that are not degenerate.  The call
    asserts that every normal it stores is normalized and that the CDF
    with these items is valid, and prepares that CDF. *)
Theorem extract_support_triangles_aligned (object : MeshObject)
    (support_triangles : list SupportTriangle) (cdf : CDF) :
  ∃ added,
    added
    = support_triangle_of object
        <$> filter (λ triangle, degenerate object triangle = false)
              (triangles object)
    ∧ extract_from object (triangles object) support_triangles cdf
      = (if forallb (λ st, is_normalized (m_normal st)) added
         then Some (support_triangles ++ added,
                    cdf ++ imap (λ k st,
                                   (length support_triangles + k, m_area st))
                             added)
         else None)
    ∧ extract_support_triangles object support_triangles cdf
      = (if forallb (λ st, is_normalized (m_normal st)) added
            && cdf_valid
                 (cdf ++ imap (λ k st,
                                 (length support_triangles + k, m_area st))
                           added)
         then Some (support_triangles ++ added,
                    cdf_prepare
                      (cdf ++ imap (λ k st,
                                      (length support_triangles + k,
                                       m_area st)) added))
         else None)
    ∧ ∀ k st,
        added !! k = Some st →
        (support_triangles ++ added) !! (length support_triangles + k)
        = Some st.
Proof.
  destruct (extract_from_spec object (triangles object) support_triangles cdf)
    as (added & Hadded & Heq).
  exists added. split; [done|]. split; [done|]. split.
  - rewrite extract_support_triangles_unfold, Heq.
    by destruct (forallb _ added).
  - intros k st Hk. by rewrite lookup_app_r, Nat.add_sub' by lia.
Qed.

Lemma extract_support_triangles_spec (object : MeshObject) :
  extract_support_triangles object [] []
  = if forallb (λ st, is_normalized (m_normal st))
         (support_triangle_of object
            <$> filter (λ triangle, degenerate object triangle = false)
                  (triangles object))
       && cdf_valid
            (imap (λ k st, (k, m_area st))
               (support_triangle_of object
                  <$> filter (λ triangle, degenerate object triangle = false)
                        (triangles object)))
    then Some (support_triangle_of object
                 <$> filter (λ triangle, degenerate object triangle = false)
                       (triangles object),
               cdf_prepare
                 (imap (λ k st, (k, m_area st))
                    (support_triangle_of object
                       <$> filter
                             (λ triangle, degenerate object triangle = false)
                             (triangles object))))
    else None.
Proof.
  destruct (extract_from_spec object (triangles object) [] [])
    as (added & <- & Heq).
  rewrite extract_support_triangles_unfold, Heq.
  by destruct (forallb _ added).
Qed.

Lemma filter_all_degenerate (object : MeshObject) :
  Forall (λ triangle, degenerate object triangle = true) (triangles object) →
  filter (λ triangle, degenerate object triangle = false) (triangles object)
  = [].
Proof.
  induction 1 as [|triangle rest Hdeg _ IH]; [done|].
  by rewrite filter_cons, decide_False by (by rewrite Hdeg).
Qed.

(** X12.  When [extract_support_triangles], called on two empty vectors,
    has a result, it has stored one support triangle per triangle whose
    normal has a norm that does not compare equal to 0.0, in order, and
    skipped the others, and the CDF is the prepared CDF of their positions
    and areas.  It has a result exactly when its assertions hold: every
    stored normal is normalized and the CDF with these items is valid.  On
    a mesh with only degenerate triangles, or without triangles, the CDF
    is empty, and the call has no result when the empty CDF is not
    valid. *)
Theorem extract_support_triangles_count (object : MeshObject) :
  (∀ support_triangles cdf,
     extract_support_triangles object [] [] = Some (support_triangles, cdf) →
     support_triangles
     = support_triangle_of object
         <$> filter (λ triangle, degenerate object triangle = false)
               (triangles object)
     ∧ length support_triangles
       = length (filter (λ triangle, degenerate object triangle = false)
                   (triangles object))
     ∧ cdf = cdf_prepare (imap (λ k st, (k, m_area st)) support_triangles))
  ∧ (is_Some (extract_support_triangles object [] [])
     ↔ forallb (λ st, is_normalized (m_normal st))
         (support_triangle_of object
            <$> filter (λ triangle, degenerate object triangle = false)
                  (triangles object)) = true
       ∧ cdf_valid
           (imap (λ k st, (k, m_area st))
              (support_triangle_of object
                 <$> filter (λ triangle, degenerate object triangle = false)
                       (triangles object))) = true)
  ∧ (Forall (λ triangle, degenerate object triangle = true)
       (triangles object) →
     cdf_valid [] = false →
     extract_support_triangles object [] [] = None).
Proof.
  rewrite extract_support_triangles_spec. split; [|split].
  - intros support cdf Hsome.
    destruct (_ && _); [|done]. injection Hsome as <- <-.
    by rewrite length_fmap.
  - destruct (forallb _ _), (cdf_valid _); simpl; split; try done;
      by intros [? ?].
  - intros Hall Hinvalid. rewrite (filter_all_degenerate object Hall).
    simpl. by rewrite Hinvalid.
Qed.

Lemma create_curves_length support_triangles cdf params
    control_point_count :
  (∀ x, is_Some (support_triangles !! (cdf_sample cdf x).1)) →
  ∀ remaining i rng curve_object,
    ∃ curves,
      create_curves support_triangles cdf params control_point_count
        i remaining rng curve_object = Some curves
      ∧ length curves
        = length curve_object + remaining * 2 ^ m_split_count params.
Proof.
  intros Hsample.
  induction remaining as [|remaining IH]; intros i rng curve_object.
  - exists curve_object. split; [done|]. simpl. lia.
  - cbn [create_curves].
    destruct (Hsample (vcomponent
                (hammersley_sequence [2; 3] i (m_curve_count params)) 0))
      as [st ->].
    cbn [mbind option_bind].
    destruct (rand_double1 rng _ _) as [f rng1].
    destruct (grow_control_points _ _ _ _ _ _ _ _ _ _)
      as [[points widths] rng2].
    destruct (IH (S i) rng2
                (split_and_store curve_object
                   (curve_from_points points widths) (m_split_count params)))
      as (curves & -> & Hlen).
    exists curves. split; [done|].
    rewrite Hlen, split_and_store_pieces, length_app, pieces_length.
    simpl. lia.
Qed.

(** X13.  When sampling a valid, prepared CDF returns one of the items
    inserted into it: if [extract_support_triangles] has a result on the
    mesh (its assertions hold), [create_curve_object] returns
    a curve object named after the mesh with the suffix "_curves", holding
    [m_curve_count * 2 ^ m_split_count] curves; if it has none,
    [create_curve_object] has no result either. *)
Theorem create_curve_object_count (assembly : Assembly)
    (support_object : MeshObject) (params : FluffParams) :
  (∀ (cdf : CDF) x,
     cdf_valid cdf = true → (cdf_sample (cdf_prepare cdf) x).1 ∈ cdf.*1) →
  (is_Some (extract_support_triangles support_object [] []) →
   ∃ curves,
     create_curve_object assembly support_object params
     = Some (mesh_name support_object +:+ "_curves", curves)
     ∧ length curves = m_curve_count params * 2 ^ m_split_count params)
  ∧ (extract_support_triangles support_object [] [] = None →
     create_curve_object assembly support_object params = None).
Proof.
  intros Hcdf. unfold create_curve_object.
  split; [|by intros ->].
  rewrite extract_support_triangles_spec.
  set (stored := support_triangle_of support_object <$> _).
  set (cdf := imap (λ k st, (k, m_area st)) stored).
  destruct (forallb _ stored); [|by intros [? ?]].
  destruct (cdf_valid cdf) eqn:Hvalid; [intros _|by intros [? ?]].
  cbn [andb mbind option_bind].
  destruct (create_curves_length stored (cdf_prepare cdf) params 4)
    with (remaining := m_curve_count params) (i := 0) (rng := rng_default)
         (curve_object := @nil BezierCurve3d)
    as (curves & -> & Hcount).
  { intros x. specialize (Hcdf cdf x Hvalid).
    apply list_elem_of_fmap in Hcdf as ([item weight] & Hfst & Hin).
    simpl in Hfst. rewrite Hfst. unfold cdf in Hin.
    apply elem_of_lookup_imap in Hin as (k & st & [= -> _] & Hk).
    by exists st. }
  by exists curves.
Qed.

(** X14.  On a mesh all of whose triangles are degenerate, asking for at
    least one curve makes [create_curve_object] read a support triangle
    from an empty vector, unless the assertion [cdf.valid()] has failed
    before: the source has no defined result there. *)
Theorem create_curve_object_without_support (assembly : Assembly)
    (support_object : MeshObject) (params : FluffParams) :
  Forall (λ triangle, degenerate support_object triangle = true)
    (triangles support_object) →
  0 < m_curve_count params →
  create_curve_object assembly support_object params = None.
Proof.
  intros Hall Hcount. unfold create_curve_object.
  rewrite extract_support_triangles_spec.
  rewrite (filter_all_degenerate support_object Hall). simpl.
  destruct (cdf_valid []); [|done]. cbn [mbind option_bind].
  destruct (m_curve_count params) as [|n]; [lia|]. done.
Qed.
End algorithm_properties.
End makefluffy_properties.

Lemma split_and_store_additive_witness :
  sum_list_with snd
    (@makefluffy.split_and_store _ demo_numerics [(InvalidBox, 5)]
       (InvalidBox, 8) 2)
  = 5 + 8.
Proof.
  apply (@makefluffy_properties.split_and_store_additive _ demo_numerics snd
           [(InvalidBox, 5)] (InvalidBox, 8) 2).
  intros [bbox tag]. change (tag = tag / 2 + (tag - tag / 2)).
  assert (tag / 2 ≤ tag); [|lia]. apply Nat.Div0.div_le_upper_bound. lia.
Defined.

Lemma demo_cdf_sample (cdf : list (nat * Q)) (x : Q) :
  demo_cdf_valid cdf = true →
  (default (0, 0%Q) (head (demo_cdf_prepare cdf))).1 ∈ cdf.*1.
Proof. destruct cdf as [|item cdf]; [done|]. intros _. simpl. by left. Qed.

Lemma create_curve_object_count_witness :
  ∃ curves,
    @makefluffy.create_curve_object _ demo_numerics
      (makefluffy.mkAssembly [] []) demo_support demo_params
    = Some ("plane_curves", curves)
    ∧ length curves = 3 * 2 ^ 2.
Proof.
  refine (proj1
            (@makefluffy_properties.create_curve_object_count _ demo_numerics
               (makefluffy.mkAssembly [] []) demo_support demo_params _) _).
  - exact demo_cdf_sample.
  - vm_compute. eexists. reflexivity.
Defined.

(** On the mesh with nothing but a degenerate triangle the CDF stays
    empty and the assertion [cdf.valid()] fails; on the plane both
    triangles that are not degenerate are stored. *)
Example extract_support_triangles_flat :
  @makefluffy.extract_support_triangles _ demo_numerics demo_flat [] [] = None
  ∧ (fst <$> @makefluffy.extract_support_triangles _ demo_numerics
               demo_support [] [])
    = Some [makefluffy.support_triangle_of demo_support
              (makefluffy.mkTriangle 0 1 2);
            makefluffy.support_triangle_of demo_support
              (makefluffy.mkTriangle 1 3 2)].
Proof. split; vm_compute; reflexivity. Qed.

Lemma create_curve_object_without_support_witness :
  @makefluffy.create_curve_object _ demo_numerics
    (makefluffy.mkAssembly [] []) demo_flat demo_params = None.
Proof.
  apply (@makefluffy_properties.create_curve_object_without_support
           _ demo_numerics (makefluffy.mkAssembly [] []) demo_flat
           demo_params).
  - repeat constructor.
  - vm_compute. lia.
Defined.

Module make_fluffy_properties.
Import makefluffy.

Ltac list_assoc := repeat rewrite <- app_assoc; simpl; try reflexivity.

Section loop.
Context `{Num : Numerics}.
Variable find_object : list Object → ObjectInstance → option Object.
Variable params : FluffParams.
Variable objects_to_instances : gmap UniqueID (list UniqueID).

Lemma get_by_uid_app instances extra uid instance :
  get_by_uid instances uid = Some instance →
  get_by_uid (instances ++ extra) uid = Some instance.
Proof.
  unfold get_by_uid. induction instances as [|x instances IH]; simpl; [done|].
  destruct (bool_decide (instance_uid x = uid)); [done|apply IH].
Qed.

Lemma get_by_uid_elem instances instance :
  instance ∈ instances →
  is_Some (get_by_uid instances (instance_uid instance)).
Proof.
  unfold get_by_uid. induction 1 as [x instances|x y instances _ IH]; simpl.
  - rewrite bool_decide_true by done. by eexists.
  - destruct (bool_decide (instance_uid y = instance_uid x)); [by eexists|].
    apply IH.
Qed.

Lemma fluff_objects_unfold fuel i assembly created :
  fluff_objects (S fuel) params objects_to_instances i assembly created =
    match objects assembly !! i with
    | None => Finished (assembly, created)
    | Some object =>
        if bool_decide (get_model object ≠ MeshObjectFactory_get_model)
        then
          fluff_objects fuel params objects_to_instances (S i)
            assembly created
        else if bool_decide (String.index 0 "light" (get_name object) ≠ None)
        then
          fluff_objects fuel params objects_to_instances (S i)
            assembly created
        else
          match data object with
          | MeshObjectData mesh =>
              match create_curve_object assembly mesh params with
              | None => Undefined
              | Some (curve_object_name, curves) =>
                  match
                    insert_curve_instances curve_object_name
                      (default [] (objects_to_instances !! get_uid object))
                      (object_instances assembly) (S created)
                  with
                  | None => Undefined
                  | Some (instances, created') =>
                      fluff_objects fuel params objects_to_instances (S i)
                        (mkAssembly
                           (objects assembly
                            ++ [mkObject (new_guid created)
                                  (CurveObjectData curve_object_name curves)])
                           instances)
                        created'
                  end
              end
          | _ => Undefined
          end
    end.
Proof. reflexivity. Qed.

Lemma is_support_false_skip fuel i assembly created object :
  objects assembly !! i = Some object →
  is_support object = false →
  fluff_objects (S fuel) params objects_to_instances i assembly created
  = fluff_objects fuel params objects_to_instances (S i) assembly created.
Proof.
  intros Hi Hskip. rewrite fluff_objects_unfold, Hi.
  unfold is_support in Hskip. apply andb_false_iff in Hskip as [Hm|Hl].
  - apply bool_decide_eq_false in Hm. by rewrite bool_decide_true.
  - apply bool_decide_eq_false in Hl.
    destruct (bool_decide (get_model object ≠ _)); [done|].
    by rewrite bool_decide_true.
Qed.

(** Objects that are not support objects are passed over. *)
Lemma fluff_objects_skip rest : ∀ done instances created fuel,
  Forall (λ object, is_support object = false) rest →
  length rest < fuel →
  fluff_objects fuel params objects_to_instances (length done)
    (mkAssembly (done ++ rest) instances) created
  = Finished (mkAssembly (done ++ rest) instances, created).
Proof.
  induction rest as [|object rest IH];
    intros done instances created fuel Hall Hfuel;
    (destruct fuel as [|fuel]; [simpl in Hfuel; lia|]).
  - rewrite fluff_objects_unfold. simpl.
    by rewrite lookup_ge_None_2 by (rewrite app_nil_r; lia).
  - apply Forall_cons in Hall as [Hskip Hall].
    rewrite (is_support_false_skip _ _ _ _ object);
      [|by apply list_lookup_middle|done].
    specialize (IH (done ++ [object]) instances created fuel Hall).
    rewrite length_app, <- app_assoc in IH. simpl in IH, Hfuel.
    rewrite Nat.add_1_r in IH. apply IH. lia.
Qed.

Lemma insert_curve_instances_spec name instances0 uids :
  Forall (λ uid, is_Some (get_by_uid instances0 uid)) uids →
  ∀ extra created,
    ∃ added,
      insert_curve_instances name uids (instances0 ++ extra) created
      = Some (instances0 ++ extra ++ added, created + length uids)
      ∧ Forall2 (curve_instance_for instances0 name) uids added.
Proof.
  induction 1 as [|uid uids [support Hsupport] _ IH]; intros extra created.
  - exists []. simpl. by rewrite app_nil_r, Nat.add_0_r.
  - cbn [insert_curve_instances].
    rewrite (get_by_uid_app _ extra _ _ Hsupport). cbn [mbind option_bind].
    rewrite <- (app_assoc instances0 extra).
    match goal with
    | |- context [extra ++ [?instance]] =>
        destruct (IH (extra ++ [instance]) (S created)) as (added & -> & Hall);
        exists (instance :: added)
    end.
    split; [f_equal; f_equal; [list_assoc|simpl; lia]|].
    constructor; [|done]. by exists support.
Qed.

Lemma create_curve_object_name assembly mesh name curves :
  create_curve_object assembly mesh params = Some (name, curves) →
  name = mesh_name mesh +:+ "_curves"
  ∧ create_curve_object (mkAssembly [] []) mesh params = Some (name, curves).
Proof.
  intros Hcreate. split; [|exact Hcreate].
  unfold create_curve_object in Hcreate.
  destruct (extract_support_triangles mesh [] []) as [[support cdf]|];
    [|done].
  cbn [mbind option_bind] in Hcreate.
  destruct (create_curves support cdf params 4 0 (m_curve_count params)
              rng_default []); simpl in Hcreate; congruence.
Qed.

Section invariant.
Variable instances0 : list ObjectInstance.
Hypothesis Hmodels :
  MeshObjectFactory_get_model ≠ CurveObjectFactory_get_model.
Hypothesis Hknown : ∀ k uids,
  objects_to_instances !! k = Some uids →
  Forall (λ uid, is_Some (get_by_uid instances0 uid)) uids.

(** The loop over the objects, with the objects [todo] of the assembly
    still to visit and the curve objects [new_objects] already inserted
    behind them. *)
Lemma fluff_objects_spec todo :
  ∀ done new_objects new_instances created fuel objs insts,
    objs = done ++ todo ++ new_objects →
    insts = instances0 ++ new_instances →
    Forall (λ object, ∀ name,
              data object ≠ OtherObjectData name MeshObjectFactory_get_model)
      todo →
    Forall (λ object, ∀ mesh,
              data object = MeshObjectData mesh → is_support object = true →
              is_Some (create_curve_object (mkAssembly [] []) mesh params))
      todo →
    Forall (λ object, is_support object = false) new_objects →
    length todo + length new_objects
      + length (filter (λ object, is_support object = true) todo) < fuel →
    ∃ more_objects groups created',
      fluff_objects fuel params objects_to_instances (length done)
        (mkAssembly objs insts) created
      = Finished (mkAssembly (objs ++ more_objects) (insts ++ mjoin groups),
                  created')
      ∧ Forall2 (curve_object_for params)
          (filter (λ object, is_support object = true) todo) more_objects
      ∧ Forall2
          (λ support group,
             Forall2
               (curve_instance_for instances0 (get_name support +:+ "_curves"))
               (default [] (objects_to_instances !! get_uid support)) group)
          (filter (λ object, is_support object = true) todo) groups.
Proof.
  induction todo as [|object todo IH];
    intros done new_objects new_instances created fuel objs insts
      Hobjs Hinsts Hwf Hdefined Hnew Hfuel.
  - exists [], [], created. simpl in Hobjs. subst objs.
    rewrite !app_nil_r. split; [|split; constructor].
    apply fluff_objects_skip; [done|]. simpl in Hfuel. lia.
  - destruct fuel as [|fuel]; [lia|].
    apply Forall_cons in Hwf as [Hwf_object Hwf].
    apply Forall_cons in Hdefined as [Hdefined_object Hdefined].
    assert (Hlookup : objects (mkAssembly objs insts) !! length done
                      = Some object).
    { subst objs. simpl. by apply list_lookup_middle. }
    rewrite filter_cons in Hfuel |- *.
    destruct (is_support object) eqn:Hsupport.
    + (* a support object *)
      rewrite decide_True in Hfuel |- * by done. simpl in Hfuel.
      pose proof Hsupport as Htests. unfold is_support in Htests.
      apply andb_true_iff in Htests as [Hmodel Hlight].
      apply bool_decide_eq_true in Hmodel, Hlight.
      rewrite fluff_objects_unfold, Hlookup.
      rewrite bool_decide_false by (by intros ?).
      rewrite bool_decide_false by (by intros ?).
      destruct (data object) as [mesh|name curves|name model] eqn:Hdata.
      2: { exfalso. unfold get_model in Hmodel. rewrite Hdata in Hmodel.
           by apply Hmodels. }
      2: { exfalso. unfold get_model in Hmodel. rewrite Hdata in Hmodel.
           subst model. by apply (Hwf_object name). }
      destruct (Hdefined_object mesh eq_refl eq_refl)
        as [[name curves] Hcreate].
      destruct (create_curve_object_name _ _ _ _ Hcreate) as [Hname _].
      assert (Hcreate' :
        create_curve_object (mkAssembly objs insts) mesh params
        = Some (name, curves)) by exact Hcreate.
      rewrite Hcreate'.
      set (curve_object := mkObject (new_guid created)
                             (CurveObjectData name curves)).
      destruct (insert_curve_instances_spec name instances0
                  (default [] (objects_to_instances !! get_uid object)))
        with (extra := new_instances) (created := S created)
        as (added & Hinsert & Hadded).
      { destruct (objects_to_instances !! get_uid object) as [uids|] eqn:Huids;
          [by eapply Hknown|constructor]. }
      simpl. rewrite Hinsts, Hinsert.
      destruct (IH (done ++ [object]) (new_objects ++ [curve_object])
                  (new_instances ++ added)
                  (S created
                   + length (default [] (objects_to_instances
                                           !! get_uid object)))
                  fuel (objs ++ [curve_object])
                  (instances0 ++ new_instances ++ added))
        as (more_objects & groups & created' & Hrun & Hobjects & Hgroups).
      { subst objs. list_assoc. }
      { list_assoc. }
      { done. }
      { done. }
      { apply Forall_app. split; [done|]. constructor; [|done].
        unfold is_support. apply andb_false_iff. left.
        apply bool_decide_eq_false. unfold get_model. simpl. by intros ?. }
      { rewrite length_app. simpl. lia. }
      rewrite length_app, Nat.add_1_r in Hrun. rewrite Hrun.
      exists (curve_object :: more_objects), (added :: groups), created'.
      split; [f_equal; f_equal; f_equal; list_assoc|].
      split; constructor; try done.
      * exists mesh, curves. subst name. done.
      * unfold get_name. rewrite Hdata. by rewrite <- Hname.
    + (* passed over *)
      rewrite decide_False in Hfuel |- * by done.
      rewrite (is_support_false_skip _ _ _ _ object Hlookup Hsupport).
      destruct (IH (done ++ [object]) new_objects new_instances created fuel
                  objs insts)
        as (more_objects & groups & created' & Hrun & Hobjects & Hgroups);
        try done.
      { subst objs. list_assoc. }
      { simpl in Hfuel. lia. }
      rewrite length_app, Nat.add_1_r in Hrun.
      by exists more_objects, groups, created'.
Qed.
End invariant.
End loop.

Section make_fluffy_theorems.
Context `{Num : Numerics}.
Variable find_object : list Object → ObjectInstance → option Object.

Lemma link_instances_known objects all rest :
  ∀ objects_to_instances : gmap UniqueID (list UniqueID),
    (∀ k uids, objects_to_instances !! k = Some uids →
               Forall (λ uid, is_Some (get_by_uid all uid)) uids) →
    Forall (λ instance, instance ∈ all) rest →
    ∀ k uids,
      foldl (link_instance find_object objects) objects_to_instances rest !! k
        = Some uids →
      Forall (λ uid, is_Some (get_by_uid all uid)) uids.
Proof.
  induction rest as [|instance rest IH]; intros m Hm Hrest; simpl; [done|].
  apply Forall_cons in Hrest as [Hin Hrest]. apply IH; [|done].
  intros k uids. unfold link_instance.
  destruct (find_object objects instance) as [object|]; [|apply Hm].
  destruct (decide (get_uid object = k)) as [->|Hne].
  - rewrite lookup_insert_eq. intros [= <-]. apply Forall_app. split.
    + destruct (m !! k) as [uids|] eqn:Hk; [by eapply Hm|constructor].
    + constructor; [|done]. by apply get_by_uid_elem.
  - rewrite lookup_insert_ne by done. apply Hm.
Qed.

(** X15.  When the mesh and curve model tags differ, no other object
    carries the mesh tag and the curve object of every support object
    (a mesh object whose name does not contain "light") is defined, the
    index-based loop of [make_fluffy] ends although it inserts objects
    while it iterates.  The objects and object instances of the assembly
    stay in place; behind them come one curve object per support object,
    in order, and for each of them one instance per instance linked to its
    support object, with the name of the curve object followed by "_inst"
    and the parameters, transform and material mappings of that
    instance. *)
Theorem make_fluffy_finishes (assembly : Assembly) (params : FluffParams)
    (fuel : nat) :
  MeshObjectFactory_get_model ≠ CurveObjectFactory_get_model →
  Forall (λ object, ∀ name,
            data object ≠ OtherObjectData name MeshObjectFactory_get_model)
    (objects assembly) →
  Forall (λ object, ∀ mesh,
            data object = MeshObjectData mesh → is_support object = true →
            is_Some (create_curve_object (mkAssembly [] []) mesh params))
    (objects assembly) →
  2 * length (objects assembly) < fuel →
  ∃ added_objects groups created,
    make_fluffy find_object fuel assembly params
    = Finished (mkAssembly (objects assembly ++ added_objects)
                  (object_instances assembly ++ mjoin groups),
                created)
    ∧ Forall2 (curve_object_for params)
        (filter (λ object, is_support object = true) (objects assembly))
        added_objects
    ∧ Forall2
        (λ support group,
           Forall2
             (curve_instance_for (object_instances assembly)
                (get_name support +:+ "_curves"))
             (default []
                (foldl (link_instance find_object (objects assembly)) ∅
                   (object_instances assembly) !! get_uid support))
             group)
        (filter (λ object, is_support object = true) (objects assembly))
        groups.
Proof.
  intros Hmodels Hwf Hdefined Hfuel. unfold make_fluffy.
  destruct assembly as [objs insts]. simpl in *.
  apply (fluff_objects_spec params
           (foldl (link_instance find_object objs) ∅ insts) insts Hmodels)
    with (done := []) (new_objects := []) (new_instances := []);
    try done; rewrite ?app_nil_r; try done.
  - apply (link_instances_known objs insts insts ∅); [done|].
    by apply Forall_forall.
  - pose proof (length_filter (λ object, is_support object = true) objs).
    simpl. lia.
Qed.

(** X16.  When the assembly has no support object, [make_fluffy] leaves it
    as it is and creates nothing. *)
Theorem make_fluffy_no_support (assembly : Assembly) (params : FluffParams)
    (fuel : nat) :
  Forall (λ object, is_support object = false) (objects assembly) →
  length (objects assembly) < fuel →
  make_fluffy find_object fuel assembly params = Finished (assembly, 0).
Proof.
  intros Hall Hfuel. unfold make_fluffy. destruct assembly as [objs insts].
  by apply (fluff_objects_skip params _ objs [] insts 0 fuel).
Qed.
End make_fluffy_theorems.
End make_fluffy_properties.

Lemma make_fluffy_finishes_witness :
  ∃ added_objects groups created,
    @makefluffy.make_fluffy _ demo_numerics demo_find_object 7
      demo_assembly demo_params
    = makefluffy.Finished
        (makefluffy.mkAssembly
           (makefluffy.objects demo_assembly ++ added_objects)
           (makefluffy.object_instances demo_assembly ++ mjoin groups),
         created)
    ∧ Forall2 (makefluffy.curve_object_for demo_params)
        (filter (λ object, makefluffy.is_support object = true)
           (makefluffy.objects demo_assembly))
        added_objects
    ∧ Forall2
        (λ support group,
           Forall2
             (makefluffy.curve_instance_for
                (makefluffy.object_instances demo_assembly)
                (makefluffy.get_name support +:+ "_curves"))
             (default []
                (foldl
                   (makefluffy.link_instance demo_find_object
                      (makefluffy.objects demo_assembly))
                   ∅ (makefluffy.object_instances demo_assembly)
                 !! makefluffy.get_uid support))
             group)
        (filter (λ object, makefluffy.is_support object = true)
           (makefluffy.objects demo_assembly))
        groups.
Proof.
  assert (Hmodels : @makefluffy.MeshObjectFactory_get_model _ demo_numerics
                    ≠ @CurveObjectFactory_get_model demo_externals)
    by (vm_compute; discriminate).
  assert (Hwf : Forall
    (λ object, ∀ name,
       makefluffy.data object
       ≠ makefluffy.OtherObjectData name
           (@makefluffy.MeshObjectFactory_get_model _ demo_numerics))
    (makefluffy.objects demo_assembly)).
  { repeat constructor; intros name Hdata; vm_compute in Hdata;
      discriminate Hdata. }
  assert (Hdefined : Forall
    (λ object, ∀ mesh,
       makefluffy.data object = makefluffy.MeshObjectData mesh →
       makefluffy.is_support object = true →
       is_Some (@makefluffy.create_curve_object _ demo_numerics
                  (makefluffy.mkAssembly [] []) mesh demo_params))
    (makefluffy.objects demo_assembly)).
  { repeat constructor; intros mesh Hdata Hsupport.
    - injection Hdata as <-. vm_compute. by eexists.
    - discriminate Hdata.
    - vm_compute in Hsupport. discriminate Hsupport. }
  assert (Hfuel : 2 * length (makefluffy.objects demo_assembly) < 7)
    by (vm_compute; lia).
  exact (@make_fluffy_properties.make_fluffy_finishes _ demo_numerics
           demo_find_object demo_assembly demo_params 7
           Hmodels Hwf Hdefined Hfuel).
Defined.

Lemma make_fluffy_no_support_witness :
  @makefluffy.make_fluffy _ demo_numerics demo_find_object 3
    demo_bare_assembly demo_params
  = makefluffy.Finished (demo_bare_assembly, 0).
Proof.
  apply (@make_fluffy_properties.make_fluffy_no_support _ demo_numerics
           demo_find_object demo_bare_assembly demo_params 3).
  - repeat constructor.
  - vm_compute. lia.
Defined.

(** ** The tree after the reordering *)

Section CurveTree_contents.
Context `{Ext : Externals}.

Lemma small_item_reorder_permutation {A} (items : list A) (order : list nat) :
  order ≡ₚ seq 0 (length items) →
  small_item_reorder items order ≡ₚ items.
Proof.
  intros Hperm. unfold small_item_reorder. rewrite Hperm.
  assert (Hseq : ∀ (l pre : list A),
    omap (λ i, (pre ++ l) !! i) (seq (length pre) (length l)) = l).
  { induction l as [|x l IH]; intros pre; simpl; [done|].
    rewrite list_lookup_middle by done. simpl. f_equal.
    specialize (IH (pre ++ [x])).
    rewrite length_app, Nat.add_1_r, <- app_assoc in IH. apply IH. }
  pose proof (Hseq items []) as Hitems. simpl in Hitems. by rewrite Hitems.
Qed.

(** X17.  The tree built from scratch holds exactly the collected curves
    and the collected keys, each as often as it was collected: the curve
    vector and the key vector are permutations of what [collect_curves]
    gathered. *)
Theorem build_bvh_keeps_curves (arguments : Arguments)
    (params : gmap string string) (time : Q) (statistics : Statistics) :
  ∃ tree,
    build_bvh arguments params time statistics empty_tree = Some tree
    ∧ m_curves3 tree ≡ₚ (collect_curves arguments ([], [])).1
    ∧ m_curve_keys tree ≡ₚ (collect_curves arguments ([], [])).2.
Proof.
  destruct (build_bvh_spec arguments params time statistics empty_tree)
    as (curves & keys & order & nodes & Hcollect & Hbuild & ->).
  simpl in Hcollect. rewrite Hcollect. simpl.
  destruct (build_spec (get_bbox <$> curves) CurveTreeDefaultMaxLeafSize
              CurveTreeDefaultInteriorNodeTraversalCost
              CurveTreeDefaultCurveIntersectionCost (length curves))
    as (order' & nodes' & Hbuild' & Hperm & _).
  unfold build_nodes in Hbuild. rewrite Hbuild in Hbuild'.
  injection Hbuild' as <- <-.
  assert (Hlen : length keys = length curves).
  { pose proof (collect_curves_emitted arguments ([], [])) as Hem.
    rewrite Hcollect in Hem. simpl in Hem. injection Hem as -> ->.
    by rewrite !length_fmap. }
  eexists. split; [done|].
  destruct curves as [|curve curves]; simpl; [done|].
  split; apply small_item_reorder_permutation; [done|by rewrite Hlen].
Qed.

(** X18.  In the tree built from scratch every key still leads back to its
    curve after the reordering: the key at a position names an object
    instance whose object carries the curve model tag and a curve index
    inside that object, and the curve at the same position is that curve
    under the transform of that instance. *)
Theorem build_bvh_key_provenance (arguments : Arguments)
    (params : gmap string string) (time : Q) (statistics : Statistics)
    (tree : CurveTree) (p : nat) (curve : BezierCurve3d) (key : CurveKey) :
  build_bvh arguments params time statistics empty_tree = Some tree →
  m_curves3 tree !! p = Some curve →
  m_curve_keys tree !! p = Some key →
  ∃ object_instance source,
    object_instances (m_assembly arguments) !! object_instance_index key
      = Some object_instance
    ∧ get_model (get_object object_instance) = CurveObjectFactory_get_model
    ∧ get_curves (get_object object_instance) !! curve_index key = Some source
    ∧ curve = transform_curve source (get_local_to_parent object_instance).
Proof.
  intros Hbuild Hcurve Hkey.
  destruct (build_bvh_members arguments params time statistics empty_tree)
    as (curves & keys & order & tree' & Hcollect & Hbuild' & _ & _ & _ & _
        & [_ Hcurves] & Hkeys).
  rewrite Hbuild in Hbuild'. injection Hbuild' as <-.
  simpl in Hcollect.
  pose proof (collect_curves_emitted arguments ([], [])) as Hem.
  rewrite Hcollect in Hem. simpl in Hem. injection Hem as -> ->.
  destruct Hkeys as [_ Hkeys]; [by rewrite !length_fmap|].
  rewrite Hcurves in Hcurve. rewrite Hkeys in Hkey.
  destruct (order !! p) as [i|]; [|done]. simpl in Hcurve, Hkey.
  rewrite list_lookup_fmap in Hcurve. rewrite list_lookup_fmap in Hkey.
  destruct (emitted arguments !! i) as [[curve' key']|] eqn:Hi; [|done].
  simpl in Hcurve, Hkey. injection Hcurve as ->. injection Hkey as ->.
  destruct (emitted_lookup _ _ _ _ Hi) as (inst & source & ? & ? & ? & ? & _).
  by exists inst, source.
Qed.

(** X19.  After [build_bvh] the node array is not empty, so that the
    constructor may take the address of its first node, and the bounding
    box of that node, the root, is the union of the bounding boxes of all
    the collected curves. *)
Theorem build_bvh_root (arguments : Arguments)
    (params : gmap string string) (time : Q) (statistics : Statistics)
    (tree : CurveTree) :
  ∃ tree' root,
    build_bvh arguments params time statistics tree = Some tree'
    ∧ m_nodes tree' !! 0 = Some root
    ∧ node_bbox root
      = foldr aabb_insert InvalidBox
          (get_bbox
             <$> (collect_curves arguments
                    (m_curves3 tree, m_curve_keys tree)).1).
Proof.
  destruct (build_bvh_spec arguments params time statistics tree)
    as (curves & keys & order & nodes & Hcollect & Hbuild & ->).
  rewrite Hcollect. simpl.
  destruct (build_spec (get_bbox <$> curves) CurveTreeDefaultMaxLeafSize
              CurveTreeDefaultInteriorNodeTraversalCost
              CurveTreeDefaultCurveIntersectionCost (length curves))
    as (order' & nodes' & Hbuild' & _ & (root & Hroot & Hbbox) & _).
  unfold build_nodes in Hbuild. rewrite Hbuild in Hbuild'.
  injection Hbuild' as <- <-.
  eexists. exists root. split; [done|].
  split; [by destruct curves|].
  rewrite Hbbox. unfold bbox_of_items, item_bbox.
  assert (Hfold : ∀ (l pre : list GAABB3),
    foldr
      (λ item acc,
         aabb_insert (default InvalidBox ((pre ++ l) !! item)) acc)
      InvalidBox (seq (length pre) (length l))
    = foldr aabb_insert InvalidBox l).
  { induction l as [|x l IH]; intros pre; simpl; [done|].
    rewrite list_lookup_middle by done. simpl. f_equal.
    specialize (IH (pre ++ [x])).
    rewrite length_app, Nat.add_1_r, <- app_assoc in IH. apply IH. }
  rewrite <- (length_fmap get_bbox curves).
  exact (Hfold (get_bbox <$> curves) []).
Qed.
End CurveTree_contents.

Lemma build_bvh_key_provenance_witness :
  ∃ object_instance source,
    object_instances (m_assembly (@demo_arguments ∅)) !! 2
      = Some object_instance
    ∧ @get_model demo_externals (get_object object_instance) = "curve_object"
    ∧ get_curves (get_object object_instance) !! 1 = Some source
    ∧ (unit_box 0 5 0, 1)
      = @transform_curve demo_externals source
          (get_local_to_parent object_instance).
Proof.
  refine (@build_bvh_key_provenance demo_externals (demo_arguments ∅) ∅
            (1 # 2) []
            (default empty_tree
               (@build_bvh demo_externals (demo_arguments ∅) ∅ (1 # 2) []
                  empty_tree))
            1 (unit_box 0 5 0, 1) (mkCurveKey 2 1 0) _ _ _);
    vm_compute; reflexivity.
Defined.
